(** * The watchlist of rmw/movie-app

    A shallow embedding of the watchlist code of the application:

    - [src/utils/watchlistUtils.ts]: [loadWatchlist], [saveWatchlist],
      [clearWatchlistStorage] (the Item Store);
    - [src/context/watchlistContext.tsx]: [WatchlistProvider] with
      [addToWatchlist], [removeFromWatchlist], [isInWatchlist], [getCount],
      [getSorted], [getFiltered] (the Manager, the Query Layer and the
      Facade, which is the [value] object of one render);
    - [src/types.d.ts]: [IMovie], [WatchlistItem], [WatchlistContextType].

    What the code calls of its host is modelled too: [JSON.stringify] and
    [JSON.parse] in [JS] and [Json], [localStorage] and the console in
    [Browser], [Array.prototype.sort] and [String.prototype.localeCompare]
    in [Host], React's [useState] and [useEffect] in [Lifecycle], and arrays
    as objects with an identity in [Arrays]. *)

From Stdlib Require Import ZArith NArith Ascii String List Sorted Permutation.
From Stdlib Require Import DecimalN DecimalFacts.
From stdpp Require Import gmap strings list.
From stdpp Require sorting.

Set Warnings "-register-all".
Local Open Scope N_scope.

(** ** JavaScript strings

    A JavaScript string is a sequence of 16-bit code units; a code unit is
    kept as an [N].  [js] reads a literal of this file as the string of its
    characters. *)

Module JS.

Abbreviation jsstring := (list N).

Definition js (s : string) : jsstring :=
  N_of_ascii <$> list_ascii_of_string s.
#[global] Arguments js : simpl never.

(** [!s] on a string: only the empty string is falsy. *)
Definition falsy (s : jsstring) : bool :=
  match s with [] => true | _ => false end.

(** [a || b] on two strings. *)
Definition or_else (a b : jsstring) : jsstring :=
  if falsy a then b else a.

Definition is_high_surrogate (c : N) : bool := (55296 <=? c) && (c <=? 56319).
Definition is_low_surrogate (c : N) : bool := (56320 <=? c) && (c <=? 57343).

(** *** [JSON.stringify] on strings (QuoteJSONString) *)

Definition hex_digit (n : N) : N :=
  if n <? 10 then 48 + n else 87 + n.

(** The escape: backslash, u and four hexadecimal digits in lower case. *)
Definition unicode_escape (c : N) : jsstring :=
  [92; 117; hex_digit (c / 4096 mod 16); hex_digit (c / 256 mod 16);
   hex_digit (c / 16 mod 16); hex_digit (c mod 16)].

(** One code unit that is not a surrogate. *)
Definition quote_unit (c : N) : jsstring :=
  if c =? 8 then [92; 98]            (* backspace: backslash b *)
  else if c =? 9 then [92; 116]      (* tab: backslash t *)
  else if c =? 10 then [92; 110]     (* line feed: backslash n *)
  else if c =? 12 then [92; 102]     (* form feed: backslash f *)
  else if c =? 13 then [92; 114]     (* carriage return: backslash r *)
  else if c =? 34 then [92; 34]      (* the double quote, escaped *)
  else if c =? 92 then [92; 92]      (* the backslash, escaped *)
  else if c <? 32 then unicode_escape c
  else [c].

(** The string is read by code points: a high surrogate followed by a low
    one is a pair and is copied; any other surrogate is lone and escaped. *)
Fixpoint quote_units (s : jsstring) : jsstring :=
  match s with
  | [] => []
  | c :: s' =>
      if is_high_surrogate c then
        match s' with
        | d :: s'' =>
            if is_low_surrogate d then c :: d :: quote_units s''
            else unicode_escape c ++ quote_units s'
        | [] => unicode_escape c
        end
      else if is_low_surrogate c then unicode_escape c ++ quote_units s'
      else quote_unit c ++ quote_units s'
  end.

Definition quote (s : jsstring) : jsstring := 34 :: quote_units s ++ [34].

(** *** Numbers in decimal *)

Fixpoint uint_units (u : Decimal.uint) : jsstring :=
  match u with
  | Decimal.Nil => []
  | Decimal.D0 u => 48 :: uint_units u
  | Decimal.D1 u => 49 :: uint_units u
  | Decimal.D2 u => 50 :: uint_units u
  | Decimal.D3 u => 51 :: uint_units u
  | Decimal.D4 u => 52 :: uint_units u
  | Decimal.D5 u => 53 :: uint_units u
  | Decimal.D6 u => 54 :: uint_units u
  | Decimal.D7 u => 55 :: uint_units u
  | Decimal.D8 u => 56 :: uint_units u
  | Decimal.D9 u => 57 :: uint_units u
  end.

(** [Number.prototype.toString] on an integer (exact below 2^53, in digits
    below 10^21). *)
Definition number_to_string (n : Z) : jsstring :=
  match n with
  | Z0 => [48]
  | Zpos p => uint_units (N.to_uint (Npos p))
  | Zneg p => 45 :: uint_units (N.to_uint (Npos p))
  end.

(** *** JSON values

    [JNumber m e] is the number [m * 10^e] the text denotes (JavaScript
    rounds it to a double: exactly, for the integers below 2^53 that
    timestamps are; the sign of a zero is not kept).  The members of an
    object are kept in the order of their first occurrence, one per key, a
    later value for a key replacing the earlier one.  (JavaScript lists the
    keys that are array indices first; nothing here depends on the order
    of the members.) *)

Inductive JSON :=
| JNull
| JBool (b : bool)
| JNumber (m : Z) (e : Z)
| JString (s : jsstring)
| JArray (elements : list JSON)
| JObject (members : list (jsstring * JSON)).

Fixpoint set_prop (k : jsstring) (v : JSON) (ms : list (jsstring * JSON))
  : list (jsstring * JSON) :=
  match ms with
  | [] => [(k, v)]
  | (k', v') :: ms' =>
      if decide (k' = k) then (k, v) :: ms' else (k', v') :: set_prop k v ms'
  end.

Fixpoint get_prop (k : jsstring) (ms : list (jsstring * JSON)) : option JSON :=
  match ms with
  | [] => None
  | (k', v) :: ms' => if decide (k' = k) then Some v else get_prop k ms'
  end.

(** *** [JSON.parse]: the tokens

    The text is read one code unit at a time by an automaton whose mode says
    what is being read. *)

Inductive token :=
| TLBrace | TRBrace | TLBracket | TRBracket | TColon | TComma
| TString (s : jsstring)
| TNumber (m : Z) (e : Z)
| TTrue | TFalse | TNull.

(** Where the automaton is inside a number (an optional minus sign; the
    integer part, 0 or digits that do not start with 0; an optional point
    with digits; an optional exponent, e or E, a sign and digits):
    [m] is the value of the digits read before the exponent, [k] the count
    of those after the point, [x] the value of the exponent's digits. *)
Inductive numstate :=
| NMinus
| NZero (neg : bool)
| NInt (neg : bool) (m : N)
| NPoint (neg : bool) (m : N)
| NFrac (neg : bool) (m : N) (k : N)
| NE (neg : bool) (m : N) (k : N)
| NESign (neg : bool) (m : N) (k : N) (eneg : bool)
| NExp (neg : bool) (m : N) (k : N) (eneg : bool) (x : N).

Inductive mode :=
| MTop
| MLit (rest : jsstring) (t : token)
| MNum (st : numstate)
| MStr (acc : jsstring)
| MEsc (acc : jsstring)
| MHex (acc : jsstring) (n : nat) (v : N).

Definition is_digit (c : N) : bool := (48 <=? c) && (c <=? 57).
Definition is_e (c : N) : bool := (c =? 101) || (c =? 69).

Definition signed (neg : bool) (n : N) : Z :=
  if neg then (- Z.of_N n)%Z else Z.of_N n.

Definition number_step (st : numstate) (c : N) : option numstate :=
  let d := c - 48 in
  match st with
  | NMinus =>
      if c =? 48 then Some (NZero true)
      else if is_digit c then Some (NInt true d) else None
  | NZero neg =>
      if c =? 46 then Some (NPoint neg 0)
      else if is_e c then Some (NE neg 0 0) else None
  | NInt neg m =>
      if is_digit c then Some (NInt neg (10 * m + d))
      else if c =? 46 then Some (NPoint neg m)
      else if is_e c then Some (NE neg m 0) else None
  | NPoint neg m =>
      if is_digit c then Some (NFrac neg (10 * m + d) 1) else None
  | NFrac neg m k =>
      if is_digit c then Some (NFrac neg (10 * m + d) (k + 1))
      else if is_e c then Some (NE neg m k) else None
  | NE neg m k =>
      if c =? 43 then Some (NESign neg m k false)
      else if c =? 45 then Some (NESign neg m k true)
      else if is_digit c then Some (NExp neg m k false d) else None
  | NESign neg m k eneg =>
      if is_digit c then Some (NExp neg m k eneg d) else None
  | NExp neg m k eneg x =>
      if is_digit c then Some (NExp neg m k eneg (10 * x + d)) else None
  end.

(** The number read so far, where the text may stop. *)
Definition number_end (st : numstate) : option token :=
  match st with
  | NZero neg => Some (TNumber (signed neg 0) 0)
  | NInt neg m => Some (TNumber (signed neg m) 0)
  | NFrac neg m k => Some (TNumber (signed neg m) (- Z.of_N k))
  | NExp neg m k eneg x =>
      Some (TNumber (signed neg m) (signed eneg x - Z.of_N k))
  | _ => None
  end.

Definition hex_value (c : N) : option N :=
  if is_digit c then Some (c - 48)
  else if (97 <=? c) && (c <=? 102) then Some (c - 87)
  else if (65 <=? c) && (c <=? 70) then Some (c - 55)
  else None.

(** Between tokens: white space is tab, line feed, carriage return and
    space. *)
Definition top (c : N) : option (mode * list token) :=
  match c with
  | 9 | 10 | 13 | 32 => Some (MTop, [])
  | 123 => Some (MTop, [TLBrace])
  | 125 => Some (MTop, [TRBrace])
  | 91 => Some (MTop, [TLBracket])
  | 93 => Some (MTop, [TRBracket])
  | 58 => Some (MTop, [TColon])
  | 44 => Some (MTop, [TComma])
  | 34 => Some (MStr [], [])
  | 45 => Some (MNum NMinus, [])
  | 48 => Some (MNum (NZero false), [])
  | 116 => Some (MLit [114; 117; 101] TTrue, [])
  | 102 => Some (MLit [97; 108; 115; 101] TFalse, [])
  | 110 => Some (MLit [117; 108; 108] TNull, [])
  | _ => if is_digit c then Some (MNum (NInt false (c - 48)), []) else None
  end.

Definition escape_step (acc : jsstring) (c : N) : option (mode * list token) :=
  match c with
  | 34 => Some (MStr (acc ++ [34]), [])
  | 92 => Some (MStr (acc ++ [92]), [])
  | 47 => Some (MStr (acc ++ [47]), [])
  | 98 => Some (MStr (acc ++ [8]), [])
  | 102 => Some (MStr (acc ++ [12]), [])
  | 110 => Some (MStr (acc ++ [10]), [])
  | 114 => Some (MStr (acc ++ [13]), [])
  | 116 => Some (MStr (acc ++ [9]), [])
  | 117 => Some (MHex acc 0 0, [])
  | _ => None
  end.

Definition step (m : mode) (c : N) : option (mode * list token) :=
  match m with
  | MTop => top c
  | MLit rest t =>
      match rest with
      | [] => None
      | [x] => if c =? x then Some (MTop, [t]) else None
      | x :: rest' => if c =? x then Some (MLit rest' t, []) else None
      end
  | MNum st =>
      match number_step st c with
      | Some st' => Some (MNum st', [])
      | None =>
          t ← number_end st;
          '(m', ts) ← top c;
          Some (m', t :: ts)
      end
  | MStr acc =>
      if c =? 34 then Some (MTop, [TString acc])
      else if c =? 92 then Some (MEsc acc, [])
      else if c <? 32 then None
      else Some (MStr (acc ++ [c]), [])
  | MEsc acc => escape_step acc c
  | MHex acc n v =>
      d ← hex_value c;
      if Nat.eqb n 3 then Some (MStr (acc ++ [16 * v + d]), [])
      else Some (MHex acc (S n) (16 * v + d), [])
  end.

(** At the end of the text. *)
Definition finish (m : mode) : option (list token) :=
  match m with
  | MTop => Some []
  | MNum st => t ← number_end st; Some [t]
  | _ => None
  end.

Fixpoint lex (m : mode) (s : jsstring) : option (list token) :=
  match s with
  | [] => finish m
  | c :: s' => '(m', ts) ← step m c; (ts ++.) <$> lex m' s'
  end.

(** The automaton over a part of a text: the mode it is left in and the
    tokens it has given. *)
Fixpoint lex_run (m : mode) (s : jsstring) : option (mode * list token) :=
  match s with
  | [] => Some (m, [])
  | c :: s' =>
      '(m', ts) ← step m c;
      '(m'', ts') ← lex_run m' s';
      Some (m'', ts ++ ts')
  end.

(** *** [JSON.parse]: the grammar

    A second automaton reads the tokens, with the arrays and objects still
    open on a stack. *)

Inductive frame :=
| FArray (acc : list JSON)
| FObject (acc : list (jsstring * JSON)) (key : jsstring).

Inductive pstate :=
| PValue (stk : list frame)
| PArrayOpen (stk : list frame)
| PAfterElement (acc : list JSON) (stk : list frame)
| PObjectOpen (stk : list frame)
| PKey (acc : list (jsstring * JSON)) (stk : list frame)
| PColon (acc : list (jsstring * JSON)) (key : jsstring) (stk : list frame)
| PAfterMember (acc : list (jsstring * JSON)) (stk : list frame)
| PDone (v : JSON).

(** A value is complete: it goes into the innermost open container. *)
Definition plug (v : JSON) (stk : list frame) : pstate :=
  match stk with
  | [] => PDone v
  | FArray acc :: stk' => PAfterElement (acc ++ [v]) stk'
  | FObject acc key :: stk' => PAfterMember (set_prop key v acc) stk'
  end.

Definition value_start (stk : list frame) (t : token) : option pstate :=
  match t with
  | TNull => Some (plug JNull stk)
  | TTrue => Some (plug (JBool true) stk)
  | TFalse => Some (plug (JBool false) stk)
  | TNumber m e => Some (plug (JNumber m e) stk)
  | TString s => Some (plug (JString s) stk)
  | TLBracket => Some (PArrayOpen stk)
  | TLBrace => Some (PObjectOpen stk)
  | _ => None
  end.

Definition pstep (st : pstate) (t : token) : option pstate :=
  match st with
  | PValue stk => value_start stk t
  | PArrayOpen stk =>
      match t with
      | TRBracket => Some (plug (JArray []) stk)
      | _ => value_start (FArray [] :: stk) t
      end
  | PAfterElement acc stk =>
      match t with
      | TComma => Some (PValue (FArray acc :: stk))
      | TRBracket => Some (plug (JArray acc) stk)
      | _ => None
      end
  | PObjectOpen stk =>
      match t with
      | TRBrace => Some (plug (JObject []) stk)
      | TString k => Some (PColon [] k stk)
      | _ => None
      end
  | PKey acc stk =>
      match t with
      | TString k => Some (PColon acc k stk)
      | _ => None
      end
  | PColon acc k stk =>
      match t with
      | TColon => Some (PValue (FObject acc k :: stk))
      | _ => None
      end
  | PAfterMember acc stk =>
      match t with
      | TComma => Some (PKey acc stk)
      | TRBrace => Some (plug (JObject acc) stk)
      | _ => None
      end
  | PDone _ => None
  end.

Fixpoint prun (st : pstate) (ts : list token) : option pstate :=
  match ts with
  | [] => Some st
  | t :: ts' => st' ← pstep st t; prun st' ts'
  end.

(** [JSON.parse text]: [None] is the SyntaxError. *)
Definition JSON_parse (text : jsstring) : option JSON :=
  ts ← lex MTop text;
  st ← prun (PValue []) ts;
  match st with
  | PDone v => Some v
  | _ => None
  end.

End JS.

(** ** The browser: [localStorage] and the console *)

Module Browser.
Import JS.

Inductive exn := SecurityError | QuotaExceededError | SyntaxError.

(** What a call gives: its value, or the exception it throws. *)
Inductive result (A : Type) :=
| Ok (a : A)
| Throw (e : exn).
Arguments Ok {A} a.
Arguments Throw {A} e.

Definition bind {A B} (r : result A) (k : A -> result B) : result B :=
  match r with
  | Ok a => k a
  | Throw e => Throw e
  end.

(** [try { body } catch { handler }] *)
Definition try_catch {A} (body : result A) (handler : result A) : result A :=
  match body with
  | Ok a => Ok a
  | Throw _ => handler
  end.

(** The storage of one origin: its entries; whether access to it is
    blocked (then every call throws); how many code units it may hold. *)
Record Storage := {
  entries : gmap jsstring jsstring;
  blocked : bool;
  quota : N
}.

Definition used (m : gmap jsstring jsstring) : N :=
  map_fold (fun k v n => N.of_nat (length k) + N.of_nat (length v) + n) 0 m.

(** [localStorage.getItem(key)]: [None] is [null]. *)
Definition getItem (ls : Storage) (key : jsstring) : result (option jsstring) :=
  if blocked ls then Throw SecurityError else Ok (entries ls !! key).

(** [localStorage.setItem(key, value)] *)
Definition setItem (ls : Storage) (key value : jsstring) : result Storage :=
  if blocked ls then Throw SecurityError
  else if quota ls <? used (<[key := value]> (entries ls))
  then Throw QuotaExceededError
  else Ok {| entries := <[key := value]> (entries ls);
             blocked := blocked ls; quota := quota ls |}.

(** [localStorage.removeItem(key)] *)
Definition removeItem (ls : Storage) (key : jsstring) : result Storage :=
  if blocked ls then Throw SecurityError
  else Ok {| entries := delete key (entries ls);
             blocked := blocked ls; quota := quota ls |}.

(** [JSON.parse] as a call. *)
Definition parse (text : jsstring) : result JSON :=
  match JSON_parse text with
  | Some v => Ok v
  | None => Throw SyntaxError
  end.

(** The storage and the lines written with [console.error]. *)
Record World := {
  localStorage : Storage;
  console : list jsstring
}.

Definition console_error (w : World) (line : jsstring) : World :=
  {| localStorage := localStorage w; console := console w ++ [line] |}.

Definition with_storage (w : World) (ls : Storage) : World :=
  {| localStorage := ls; console := console w |}.

End Browser.

(** ** [src/types.d.ts] *)

Inductive MediaType := movie | tv.

#[global] Instance MediaType_eq_dec : EqDecision MediaType.
Proof. solve_decision. Defined.

Module IMovie.
Import JS.
Record t := {
  id : jsstring;
  poster_path : jsstring;
  original_title : jsstring;
  name : jsstring;
  overview : jsstring;
  backdrop_path : jsstring
}.
End IMovie.

Module WatchlistItem.
Import JS.
(** [addedAt] is a [number]; the code only ever puts [Date.now()] there, an
    integer count of milliseconds. *)
Record t := {
  id : jsstring;
  type : MediaType;
  title : jsstring;
  poster_path : jsstring;
  addedAt : Z
}.
End WatchlistItem.

Abbreviation Item := WatchlistItem.t.

(** ** [JSON.stringify] at the type [WatchlistItem[]], and the value such an
    array is *)

Module Json.
Import JS.

Definition type_string (t : MediaType) : jsstring :=
  match t with movie => js "movie" | tv => js "tv" end.

(** An item as a JavaScript value: the properties in the order
    [addToWatchlist] creates them. *)
Definition item_json (i : Item) : JSON :=
  JObject [ (js "id", JString (WatchlistItem.id i));
            (js "type", JString (type_string (WatchlistItem.type i)));
            (js "title", JString (WatchlistItem.title i));
            (js "poster_path", JString (WatchlistItem.poster_path i));
            (js "addedAt", JNumber (WatchlistItem.addedAt i) 0) ].

Definition items_json (items : list Item) : JSON :=
  JArray (item_json <$> items).

Definition stringify_item (i : Item) : jsstring :=
  [123] ++ quote (js "id") ++ [58] ++ quote (WatchlistItem.id i)
  ++ [44] ++ quote (js "type") ++ [58]
  ++ quote (type_string (WatchlistItem.type i))
  ++ [44] ++ quote (js "title") ++ [58] ++ quote (WatchlistItem.title i)
  ++ [44] ++ quote (js "poster_path") ++ [58]
  ++ quote (WatchlistItem.poster_path i)
  ++ [44] ++ quote (js "addedAt") ++ [58]
  ++ number_to_string (WatchlistItem.addedAt i) ++ [125].

Fixpoint stringify_tail (items : list Item) : jsstring :=
  match items with
  | [] => [93]
  | i :: items' => [44] ++ stringify_item i ++ stringify_tail items'
  end.

(** [JSON.stringify(items)], with no indentation. *)
Definition JSON_stringify (items : list Item) : jsstring :=
  match items with
  | [] => [91; 93]
  | i :: items' => [91] ++ stringify_item i ++ stringify_tail items'
  end.

(** The tokens of the text of an item, and of an array of items after its
    first item. *)
Definition item_tokens (i : Item) : list token :=
  [ TLBrace; TString (js "id"); TColon; TString (WatchlistItem.id i);
    TComma; TString (js "type"); TColon;
    TString (type_string (WatchlistItem.type i));
    TComma; TString (js "title"); TColon; TString (WatchlistItem.title i);
    TComma; TString (js "poster_path"); TColon;
    TString (WatchlistItem.poster_path i);
    TComma; TString (js "addedAt"); TColon;
    TNumber (WatchlistItem.addedAt i) 0; TRBrace ].

Fixpoint tail_tokens (items : list Item) : list token :=
  match items with
  | [] => [TRBracket]
  | i :: items' => TComma :: item_tokens i ++ tail_tokens items'
  end.

(** The cast [as WatchlistItem[]] checks nothing.  [as_items] reads a value
    that does have the declared shape as the items it holds, and is [None]
    on any other value. *)
Definition number_integer (m e : Z) : option Z :=
  if (0 <=? e)%Z then Some (m * 10 ^ e)%Z
  else if (m mod 10 ^ (- e) =? 0)%Z then Some (m / 10 ^ (- e))%Z
  else None.

Definition as_type (s : jsstring) : option MediaType :=
  if decide (s = js "movie") then Some movie
  else if decide (s = js "tv") then Some tv
  else None.

Definition as_item (v : JSON) : option Item :=
  match v with
  | JObject ms =>
      match get_prop (js "id") ms, get_prop (js "type") ms,
            get_prop (js "title") ms, get_prop (js "poster_path") ms,
            get_prop (js "addedAt") ms with
      | Some (JString i), Some (JString ty), Some (JString t),
        Some (JString p), Some (JNumber m e) =>
          ty' ← as_type ty;
          n ← number_integer m e;
          Some {| WatchlistItem.id := i; WatchlistItem.type := ty';
                  WatchlistItem.title := t; WatchlistItem.poster_path := p;
                  WatchlistItem.addedAt := n |}
      | _, _, _, _, _ => None
      end
  | _ => None
  end.

Definition as_items (v : JSON) : option (list Item) :=
  match v with
  | JArray vs => mapM as_item vs
  | _ => None
  end.

End Json.

(** ** [src/utils/watchlistUtils.ts] *)

Module watchlistUtils.
Import JS Browser Json.

Definition WATCHLIST_KEY : jsstring := js "tmovies_watchlist".
#[global] Arguments WATCHLIST_KEY : simpl never.

(** [loadWatchlist]: the value returned is whatever [JSON.parse] gives. *)
Definition loadWatchlist (w : World) : result JSON :=
  try_catch
    (bind (getItem (localStorage w) WATCHLIST_KEY) (fun stored =>
       match stored with
       | None => Ok (JArray [])
       | Some text =>
           if falsy text then Ok (JArray []) else parse text
       end))
    (* Handle corrupted data gracefully *)
    (Ok (JArray [])).

Definition saveWatchlist (items : list Item) (w : World) : result World :=
  try_catch
    (bind (setItem (localStorage w) WATCHLIST_KEY (JSON_stringify items))
       (fun ls => Ok (with_storage w ls)))
    (Ok (console_error w (js "Failed to save watchlist to localStorage"))).

Definition clearWatchlistStorage (w : World) : result World :=
  try_catch
    (bind (removeItem (localStorage w) WATCHLIST_KEY)
       (fun ls => Ok (with_storage w ls)))
    (Ok (console_error w (js "Failed to clear watchlist from localStorage"))).

End watchlistUtils.

(** ** [Array.prototype.sort] and [String.prototype.localeCompare] *)

Module Host.
Import JS.

Section Sort.
Context {A : Type} (compareFn : A -> A -> Z).

(** [sort_insert x l] puts [x] into [l], which holds the elements that
    followed [x]: [x] passes exactly the elements it compares greater
    than, up to the first one it does not. *)
Fixpoint sort_insert (x : A) (l : list A) : list A :=
  match l with
  | [] => [x]
  | y :: l' =>
      if (0 <? compareFn x y)%Z then y :: sort_insert x l'
      else x :: y :: l'
  end.

(** [array.sort(compareFn)] is a stable sort (since ECMAScript 2019); the
    order it gives is that of the stable insertion sort. *)
Definition sort (l : list A) : list A := foldr sort_insert [] l.
End Sort.

Fixpoint compare_units (a b : jsstring) : comparison :=
  match a, b with
  | [], [] => Eq
  | [], _ :: _ => Lt
  | _ :: _, [] => Gt
  | x :: a', y :: b' =>
      match x ?= y with
      | Eq => compare_units a' b'
      | c => c
      end
  end.

Definition is_upper (c : N) : bool := (65 <=? c) && (c <=? 90).
Definition fold_case (c : N) : N := if is_upper c then c + 32 else c.
Definition case_weight (c : N) : N := if is_upper c then 1 else 0.

(** [a.localeCompare(b)] in the default collation, on strings of letters,
    digits and spaces: the letters are compared without their case first,
    and where that leaves two strings equal, the first letter whose case
    differs decides, lower case before upper case.  (The collation of the
    host orders punctuation otherwise than the code units used here.) *)
Definition localeCompare (a b : jsstring) : Z :=
  match compare_units (fold_case <$> a) (fold_case <$> b) with
  | Lt => -1
  | Gt => 1
  | Eq =>
      match compare_units (case_weight <$> a) (case_weight <$> b) with
      | Lt => -1
      | Gt => 1
      | Eq => 0
      end
  end%Z.

End Host.

(** ** [src/context/watchlistContext.tsx] *)

Inductive SortBy := date_new | date_old | by_title.
Inductive Filter := all | only (t : MediaType).

Module WatchlistProvider.
Import JS.

Definition has_id (id : jsstring) (item : Item) : bool :=
  bool_decide (WatchlistItem.id item = id).

(** [newItem], as [addToWatchlist] builds it; [now] is what [Date.now()]
    returns. *)
Definition newItem (movie : IMovie.t) (type : MediaType) (now : Z) : Item :=
  {| WatchlistItem.id := IMovie.id movie;
     WatchlistItem.type := type;
     WatchlistItem.title :=
       or_else (IMovie.original_title movie) (IMovie.name movie);
     WatchlistItem.poster_path := IMovie.poster_path movie;
     WatchlistItem.addedAt := now |}.

(** The updater [addToWatchlist] hands to [setItems]; [now] is what
    [Date.now()] returns when it runs. *)
Definition addToWatchlist_updater (movie : IMovie.t) (type : MediaType)
    (now : Z) (prev : list Item) : list Item :=
  (* Check if item already exists *)
  if existsb (has_id (IMovie.id movie)) prev then prev
  else newItem movie type now :: prev.

(** The updater [removeFromWatchlist] hands to [setItems]. *)
Definition removeFromWatchlist_updater (id : jsstring) (prev : list Item)
  : list Item :=
  List.filter (fun item => negb (has_id id item)) prev.

Definition ids (c : list Item) : list jsstring := WatchlistItem.id <$> c.

(** The collections the two updaters build from the empty one. *)
Inductive reachable : list Item -> Prop :=
| reachable_empty : reachable []
| reachable_add mv type now c :
    reachable c -> reachable (addToWatchlist_updater mv type now c)
| reachable_remove id c :
    reachable c -> reachable (removeFromWatchlist_updater id c).

Definition has_type (t : MediaType) (item : Item) : bool :=
  bool_decide (WatchlistItem.type item = t).

Section Render.
(** [const [items, setItems] = useState(...)]: the functions of one
    render read the [items] of that render. *)
Variable items : list Item.

Definition isInWatchlist (id : jsstring) : bool :=
  existsb (has_id id) items.

Definition getCount : nat := length items.

(** What [getFiltered] returns holds these items; which array that is,
    is in [Arrays.getFiltered]. *)
Definition getFiltered (filter : Filter) : list Item :=
  match filter with
  | all => items
  | only t => List.filter (has_type t) items
  end.
End Render.

Section Sorted.
(** The collation of the host. *)
Variable localeCompare : jsstring -> jsstring -> Z.

(** It is a copy of [itemsToSort] that is sorted. *)
Definition getSorted (itemsToSort : list Item) (sortBy : SortBy)
  : list Item :=
  let sorted := itemsToSort in
  match sortBy with
  | date_new =>
      Host.sort (fun a b =>
        WatchlistItem.addedAt b - WatchlistItem.addedAt a)%Z sorted
  | date_old =>
      Host.sort (fun a b =>
        WatchlistItem.addedAt a - WatchlistItem.addedAt b)%Z sorted
  | by_title =>
      Host.sort (fun a b =>
        localeCompare (WatchlistItem.title a) (WatchlistItem.title b)) sorted
  end.
End Sorted.

(** Whether [getFiltered(filter)] keeps an item. *)
Definition passes (filter : Filter) (item : Item) : bool :=
  match filter with
  | all => true
  | only t => has_type t item
  end.

(** Two classes of items for the order of [getSorted]: the items added at
    one time, and the label of an item without the case of its letters. *)
Definition same_time (t : Z) (i : Item) : bool :=
  bool_decide (WatchlistItem.addedAt i = t).

Definition normalized (i : Item) : jsstring :=
  Host.fold_case <$> WatchlistItem.title i.

End WatchlistProvider.

(** ** The provider at run time: [useState], the effects, the [value]

    [setItems] does not change the [items] of the render that called it: it
    queues its argument, and the next render computes the new [items] from
    the queue.  The [value] of a render is the Facade presentation code
    holds; its functions are those of [WatchlistProvider] at the [items] of
    that render. *)

Module Lifecycle.
Import JS Browser Json watchlistUtils.

(** What [setItems] was called with. *)
Inductive update :=
| SetTo (saved : list Item)
| Added (movie : IMovie.t) (type : MediaType) (now : Z)
| Removed (id : jsstring).

Definition apply_update (u : update) (prev : list Item) : list Item :=
  match u with
  | SetTo saved => saved
  | Added mv type now =>
      WatchlistProvider.addToWatchlist_updater mv type now prev
  | Removed id => WatchlistProvider.removeFromWatchlist_updater id prev
  end.

(** Whether the updater hands back the very array it was given ([return
    prev]); [filter] and the array literal always make a new array. *)
Definition returns_prev (u : update) (prev : list Item) : bool :=
  match u with
  | Added mv _ _ => existsb (WatchlistProvider.has_id (IMovie.id mv)) prev
  | _ => false
  end.

Record Provider := {
  state : list Item;
  queue : list update;
  world : World
}.

(** The Facade: [value.items]; [value.isInWatchlist(id)] is
    [WatchlistProvider.isInWatchlist (items value) id], and so on. *)
Record value := { items : list Item }.

Definition setItems (u : update) (p : Provider) : Provider :=
  {| state := state p; queue := queue p ++ [u]; world := world p |}.

Definition addToWatchlist (movie : IMovie.t) (type : MediaType) (now : Z)
    (p : Provider) : Provider :=
  setItems (Added movie type now) p.

Definition removeFromWatchlist (id : jsstring) (p : Provider) : Provider :=
  setItems (Removed id) p.

(** The queue, run on the state; the flag says whether the state is now
    another array than the one the last render had. *)
Fixpoint process (q : list update) (s : list Item) (changed : bool)
  : list Item * bool :=
  match q with
  | [] => (s, changed)
  | u :: q' =>
      process q' (apply_update u s) (changed || negb (returns_prev u s))
  end.

(** The [items] the next render will have. *)
Definition pending (p : Provider) : list Item :=
  (process (queue p) (state p) false).1.

(** A render after the first: the new [items], the new [value], and the
    effect [saveWatchlist(items)], which runs when [items] has changed. *)
Definition render (p : Provider) : result (Provider * value) :=
  let '(items, changed) := process (queue p) (state p) false in
  bind (if changed then saveWatchlist items (world p) else Ok (world p))
    (fun w =>
       Ok ({| state := items; queue := []; world := w |},
           {| items := items |})).

(** The first render has [items = []]; then both effects run, in order:
    the one that loads and calls [setItems(saved)], the one that saves the
    [items] of this render.  A stored value that is not of the type
    [WatchlistItem[]] is outside this typed model ([None]). *)
Definition mount (w : World) : result (option (Provider * value)) :=
  bind (loadWatchlist w) (fun saved =>
  bind (saveWatchlist [] w) (fun w' =>
    Ok (l ← as_items saved;
        Some ({| state := []; queue := [SetTo l]; world := w' |},
              {| items := [] |})))).

(** The mutating functions the [value] offers: [addToWatchlist] and
    [removeFromWatchlist], and no other. *)
Inductive call :=
| CallAdd (movie : IMovie.t) (type : MediaType) (now : Z)
| CallRemove (id : jsstring).

Definition run_call (c : call) (p : Provider) : Provider :=
  match c with
  | CallAdd mv type now => addToWatchlist mv type now p
  | CallRemove id => removeFromWatchlist id p
  end.

(** Calls, each followed by the render it causes. *)
Fixpoint run_calls (cs : list call) (p : Provider) : result Provider :=
  match cs with
  | [] => Ok p
  | c :: cs' =>
      bind (render (run_call c p)) (fun pv => run_calls cs' (fst pv))
  end.

End Lifecycle.

(** ** Arrays as objects

    An array is an object: two names can hold the same array, and a change
    made through one is seen through the other.  The heap maps the
    location of each array to its elements. *)

Module Arrays.

Abbreviation loc := nat.
Abbreviation heap := (gmap nat (list Item)).

Definition read (h : heap) (l : loc) : list Item := default [] (h !! l).

(** A new array. *)
Definition alloc (elements : list Item) (h : heap) : loc * heap :=
  let l := fresh (dom h) in (l, <[l := elements]> h).

(** A change made in place to the array at [l] ([push], [sort],
    [length = 0], ...). *)
Definition mutate (l : loc) (f : list Item -> list Item) (h : heap) : heap :=
  <[l := f (read h l)]> h.

(** [getFiltered] of the render whose [items] is the array at [items]. *)
Definition getFiltered (items : loc) (filter : Filter) (h : heap)
  : loc * heap :=
  match filter with
  | all => (items, h)
  | only t =>
      alloc (List.filter (WatchlistProvider.has_type t) (read h items)) h
  end.

End Arrays.

(** ** Arrays as objects: [getSorted] and the two updaters *)

Module ArrayOps.
Import Arrays.

(** [getSorted]: [sorted] is a copy of [itemsToSort]; [sort] sorts the copy
    in place and returns it. *)
Definition getSorted (localeCompare : list N -> list N -> Z)
    (itemsToSort : loc) (sortBy : SortBy) (h : heap) : loc * heap :=
  let '(sorted, h1) := alloc (read h itemsToSort) h in
  (sorted,
   mutate sorted
     (fun l => WatchlistProvider.getSorted localeCompare l sortBy) h1).

(** The updater of [addToWatchlist]: [return prev] or a new array. *)
Definition addToWatchlist_updater (movie : IMovie.t) (type : MediaType)
    (now : Z) (prev : loc) (h : heap) : loc * heap :=
  if existsb (WatchlistProvider.has_id (IMovie.id movie)) (read h prev)
  then (prev, h)
  else alloc (WatchlistProvider.newItem movie type now :: read h prev) h.

(** The updater of [removeFromWatchlist]: [filter] makes a new array. *)
Definition removeFromWatchlist_updater (id : list N) (prev : loc) (h : heap)
  : loc * heap :=
  alloc (List.filter (fun item => negb (WatchlistProvider.has_id id item))
           (read h prev)) h.

End ArrayOps.

(** ** The collections a session builds, with its clock

    [built t c]: [c] is built from the empty collection by the two
    updaters, [Date.now()] never going back, and [t] is the last time
    read. *)

Module Session.

Inductive built : Z -> list Item -> Prop :=
| built_empty t : built t []
| built_add t c mv type now :
    built t c -> (t <= now)%Z ->
    built now (WatchlistProvider.addToWatchlist_updater mv type now c)
| built_remove t c id :
    built t c -> built t (WatchlistProvider.removeFromWatchlist_updater id c).

(** The storage holds the snapshot of the items of the last render. *)
Definition in_sync (p : Lifecycle.Provider) : Prop :=
  Lifecycle.queue p = [] /\
  Browser.entries (Browser.localStorage (Lifecycle.world p))
    !! watchlistUtils.WATCHLIST_KEY
  = Some (Json.JSON_stringify (Lifecycle.state p)).

(** What a call hands to [setItems]. *)
Definition update_of (c : Lifecycle.call) : Lifecycle.update :=
  match c with
  | Lifecycle.CallAdd mv type now => Lifecycle.Added mv type now
  | Lifecycle.CallRemove id => Lifecycle.Removed id
  end.

End Session.

(** ** The page [Watchlist] *)

Module Watchlist.
Import JS.

Inductive SortOption := dateAdded | dateAddedDesc | titleAsc | titleDesc.

Section Page.
Variable localeCompare : jsstring -> jsstring -> Z.
(** [const { items, removeFromWatchlist } = useWatchlist()] *)
Variable items : list Item.
Variable sortBy : SortOption.
Variable filterBy : Filter.

(* Filter items *)
Definition filteredItems : list Item :=
  List.filter
    (fun item =>
       match filterBy with
       | all => true
       | only t => WatchlistProvider.has_type t item
       end) items.

Definition compare (a b : Item) : Z :=
  match sortBy with
  | dateAdded => WatchlistItem.addedAt a - WatchlistItem.addedAt b
  | dateAddedDesc => WatchlistItem.addedAt b - WatchlistItem.addedAt a
  | titleAsc => localeCompare (WatchlistItem.title a) (WatchlistItem.title b)
  | titleDesc => localeCompare (WatchlistItem.title b) (WatchlistItem.title a)
  end%Z.

(* Sort items *)
Definition sortedItems : list Item := Host.sort compare filteredItems.

Definition handleRemove (id : jsstring) (p : Lifecycle.Provider)
  : Lifecycle.Provider :=
  Lifecycle.removeFromWatchlist id p.

(** [confirmed] is what [window.confirm] returns. *)
Definition handleClearAll (confirmed : bool) (p : Lifecycle.Provider)
  : Lifecycle.Provider :=
  if confirmed then
    foldl
      (fun p item => Lifecycle.removeFromWatchlist (WatchlistItem.id item) p)
      p items
  else p.

(** What the page shows: the line with the count, the button Clear All,
    the filter and sort controls, the cards, or the empty state. *)
Record view := {
  count_line : jsstring;
  clear_all_button : bool;
  controls : bool;
  cards : list Item;
  empty_state : bool
}.

Definition page : view :=
  let n := length sortedItems in
  {| count_line :=
       number_to_string (Z.of_nat n) ++ js " "
       ++ (if Nat.eqb n 1 then js "item" else js "items");
     clear_all_button := Nat.ltb 0 n;
     controls := Nat.ltb 0 n;
     cards := sortedItems;
     empty_state := negb (Nat.ltb 0 n) |}.
End Page.

(** The path [handleCardClick] navigates to. *)
Definition card_path (id : jsstring) (type : MediaType) : jsstring :=
  js "/" ++ Json.type_string type ++ js "/" ++ id.

End Watchlist.

(** ** Data for the examples *)

Module Examples.
Import JS Browser watchlistUtils.

Definition fight_club : IMovie.t :=
  {| IMovie.id := js "550";
     IMovie.poster_path := js "/pB8BM7pdSp6B6Ie8DQlJp1wAwh6.jpg";
     IMovie.original_title := js "Fight Club";
     IMovie.name := js "";
     IMovie.overview := js "";
     IMovie.backdrop_path := js "" |}.

(** A series has a [name] and no [original_title]. *)
Definition breaking_bad : IMovie.t :=
  {| IMovie.id := js "1399";
     IMovie.poster_path := js "/ggFHVNvVeFxEmojieBF5P0fWQga.jpg";
     IMovie.original_title := js "";
     IMovie.name := js "Breaking Bad";
     IMovie.overview := js "";
     IMovie.backdrop_path := js "" |}.

Definition untitled : IMovie.t :=
  {| IMovie.id := js "7";
     IMovie.poster_path := js "/p.jpg";
     IMovie.original_title := js "";
     IMovie.name := js "";
     IMovie.overview := js "";
     IMovie.backdrop_path := js "" |}.

Definition item (id : string) (type : MediaType) (title : string)
    (addedAt : Z) : Item :=
  {| WatchlistItem.id := js id;
     WatchlistItem.type := type;
     WatchlistItem.title := js title;
     WatchlistItem.poster_path := js "/p.jpg";
     WatchlistItem.addedAt := addedAt |}.

Definition storage_with (m : gmap jsstring jsstring) : World :=
  {| localStorage := {| entries := m; blocked := false; quota := 5242880 |};
     console := [] |}.

Definition empty_storage : World := storage_with ∅.

Definition blocked_storage : World :=
  {| localStorage := {| entries := ∅; blocked := true; quota := 5242880 |};
     console := [] |}.

Definition full_storage : World :=
  {| localStorage := {| entries := ∅; blocked := false; quota := 10 |};
     console := [] |}.

(** The entry of the test of the repository for corrupted data. *)
Definition corrupted_storage : World :=
  storage_with {[ WATCHLIST_KEY := js "invalid json" ]}.


Definition two_items : list Item :=
  [item "1399" tv "Breaking Bad" 1698432000000;
   item "550" movie "Fight Club" 1698358400000].

(** A provider that has rendered with one item, its snapshot stored. *)
Definition watching : Lifecycle.Provider :=
  {| Lifecycle.state := [item "550" movie "Fight Club" 1];
     Lifecycle.queue := [];
     Lifecycle.world :=
       storage_with
         {[ WATCHLIST_KEY :=
              Json.JSON_stringify [item "550" movie "Fight Club" 1] ]} |}.

(** A provider that has rendered with no item, and the [value] of that
    render. *)
Definition idle (w : World) : Lifecycle.Provider :=
  {| Lifecycle.state := []; Lifecycle.queue := []; Lifecycle.world := w |}.

End Examples.

(** * Properties *)

Import JS Browser Json watchlistUtils.

(** ** [JSON.parse] on some texts *)

Section ParseExamples.

Example parse_empty_text : JSON_parse [] = None.
Proof. reflexivity. Qed.

Example parse_not_json : JSON_parse (js "invalid json") = None.
Proof. reflexivity. Qed.

Example parse_numbers :
  JSON_parse (js " [0, -12, 1.50, 2e3, -3.25E-2] ")
  = Some (JArray [JNumber 0 0; JNumber (-12) 0; JNumber 150 (-2);
                  JNumber 2 3; JNumber (-325) (-4)]).
Proof. reflexivity. Qed.

Example parse_leading_zero : JSON_parse (js "[01]") = None.
Proof. reflexivity. Qed.

Example parse_trailing_comma : JSON_parse (js "[1,]") = None.
Proof. reflexivity. Qed.

Example parse_two_values : JSON_parse (js "1 2") = None.
Proof. reflexivity. Qed.

Example parse_literals :
  JSON_parse (js "[true,false,null,[],{}]")
  = Some (JArray [JBool true; JBool false; JNull; JArray []; JObject []]).
Proof. reflexivity. Qed.

(** An object, with an escape in a key and a key that comes twice; 34 is
    the double quote, and the text is [{"a\n":1,"b":[2],"a\n":3}]. *)
Example parse_object :
  JSON_parse
    ([123; 34] ++ js "a\n" ++ [34] ++ js ":1," ++ [34; 98; 34] ++ js ":[2],"
     ++ [34] ++ js "a\n" ++ [34] ++ js ":3}")
  = Some (JObject [([97; 10], JNumber 3 0);
                   ([98], JArray [JNumber 2 0])]).
Proof. reflexivity. Qed.

(** A control character must be escaped in a string. *)
Example parse_raw_control : JSON_parse [34; 9; 34] = None.
Proof. reflexivity. Qed.

(** A string with a quote, a backslash, a line feed, the control character
    1, a surrogate pair and a lone surrogate, written and read back. *)
Example quote_then_parse :
  let s := [34; 92; 10; 1; 55357; 56832; 55357; 65] in
  quote s
  = [34; 92; 34; 92; 92; 92; 110; 92; 117; 48; 48; 48; 49; 55357; 56832;
     92; 117; 100; 56; 51; 100; 65; 34] /\
  JSON_parse (quote s) = Some (JString s).
Proof. split; reflexivity. Qed.

End ParseExamples.

(** ** [JSON.parse] reads what [JSON.stringify] writes *)

Section Lexing.

Lemma lex_run_app m s1 s2 m1 t1 m2 t2 :
  lex_run m s1 = Some (m1, t1) ->
  lex_run m1 s2 = Some (m2, t2) ->
  lex_run m (s1 ++ s2) = Some (m2, t1 ++ t2).
Proof.
  revert m t1. induction s1 as [|c s1 IH]; intros m t1 H1 H2; cbn in *.
  - by injection H1 as -> <-.
  - destruct (step m c) as [[m' ts]|]; [| done]. cbn in *.
    destruct (lex_run m' s1) as [[m'' ts']|] eqn:E; [| done]. cbn in *.
    injection H1 as -> <-.
    rewrite (IH _ _ E H2). cbn. by rewrite app_assoc.
Qed.

Lemma lex_run_cons m c s m1 t1 m2 t2 :
  step m c = Some (m1, t1) ->
  lex_run m1 s = Some (m2, t2) ->
  lex_run m (c :: s) = Some (m2, t1 ++ t2).
Proof. intros H1 H2. cbn. rewrite H1. cbn. by rewrite H2. Qed.

Lemma lex_of_run m s ts :
  lex_run m s = Some (MTop, ts) -> lex m s = Some ts.
Proof.
  revert m ts. induction s as [|c s IH]; intros m ts H; cbn in *.
  - by injection H as -> <-.
  - destruct (step m c) as [[m' t1]|]; [| done]. cbn in *.
    destruct (lex_run m' s) as [[m'' t2]|] eqn:E; [| done]. cbn in *.
    injection H as -> <-. by rewrite (IH _ _ E).
Qed.

Lemma hex_value_digit n : n < 16 -> hex_value (hex_digit n) = Some n.
Proof.
  intros H. destruct n as [|p]; [done |].
  do 4 (destruct p as [p|p|]; try done); lia.
Qed.

Lemma hex_digits_value c :
  c < 65536 ->
  16 * (16 * (16 * (16 * 0 + c / 4096 mod 16) + c / 256 mod 16)
        + c / 16 mod 16) + c mod 16 = c.
Proof.
  intros H.
  replace (c / 256) with (c / 16 / 16) by (by rewrite N.Div0.div_div).
  replace (c / 4096) with (c / 16 / 16 / 16) by (by rewrite !N.Div0.div_div).
  pose proof (N.div_mod c 16 ltac:(lia)) as H0.
  pose proof (N.div_mod (c / 16) 16 ltac:(lia)) as H1.
  pose proof (N.div_mod (c / 16 / 16) 16 ltac:(lia)) as H2.
  assert (H3 : c / 16 / 16 / 16 < 16).
  { rewrite !N.Div0.div_div. apply N.Div0.div_lt_upper_bound. lia. }
  rewrite (N.mod_small (c / 16 / 16 / 16)) by done.
  lia.
Qed.

Lemma step_hex acc n v d :
  d < 16 ->
  step (MHex acc n v) (hex_digit d)
  = Some (if Nat.eqb n 3 then MStr (acc ++ [16 * v + d])
          else MHex acc (S n) (16 * v + d), []).
Proof.
  intros H. unfold step. rewrite hex_value_digit by done. cbn.
  by destruct (Nat.eqb n 3).
Qed.

Lemma lex_unicode_escape acc c :
  c < 65536 ->
  lex_run (MStr acc) (unicode_escape c) = Some (MStr (acc ++ [c]), []).
Proof.
  intros H. unfold unicode_escape.
  apply (lex_run_cons _ _ _ (MEsc acc) [] _ []); [done |].
  apply (lex_run_cons _ _ _ (MHex acc 0 0) [] _ []); [done |].
  eapply (lex_run_cons _ _ _ _ [] _ []);
    [apply step_hex, N.mod_lt; lia |].
  eapply (lex_run_cons _ _ _ _ [] _ []);
    [apply step_hex, N.mod_lt; lia |].
  eapply (lex_run_cons _ _ _ _ [] _ []);
    [apply step_hex, N.mod_lt; lia |].
  eapply (lex_run_cons _ _ _ _ [] _ []);
    [apply step_hex, N.mod_lt; lia |].
  cbn [Nat.eqb lex_run]. by rewrite hex_digits_value.
Qed.

Lemma step_plain acc c :
  c <> 34 -> c <> 92 -> 32 <= c ->
  step (MStr acc) c = Some (MStr (acc ++ [c]), []).
Proof.
  intros H1 H2 H3. cbn.
  destruct (N.eqb_spec c 34); [done |].
  destruct (N.eqb_spec c 92); [done |].
  destruct (N.ltb_spec c 32); [lia | done].
Qed.

Lemma lex_quote_unit acc c :
  lex_run (MStr acc) (quote_unit c) = Some (MStr (acc ++ [c]), []).
Proof.
  unfold quote_unit.
  destruct (N.eqb_spec c 8) as [-> |]; [done |].
  destruct (N.eqb_spec c 9) as [-> |]; [done |].
  destruct (N.eqb_spec c 10) as [-> |]; [done |].
  destruct (N.eqb_spec c 12) as [-> |]; [done |].
  destruct (N.eqb_spec c 13) as [-> |]; [done |].
  destruct (N.eqb_spec c 34) as [-> |]; [done |].
  destruct (N.eqb_spec c 92) as [-> |]; [done |].
  destruct (N.ltb_spec c 32).
  - apply lex_unicode_escape. lia.
  - cbn [lex_run]. by rewrite step_plain.
Qed.

Lemma surrogate_bounds c :
  is_high_surrogate c || is_low_surrogate c = true ->
  c <> 34 /\ c <> 92 /\ 32 <= c /\ c < 65536.
Proof.
  unfold is_high_surrogate, is_low_surrogate.
  rewrite orb_true_iff, !andb_true_iff, !N.leb_le. lia.
Qed.

Lemma lex_plain acc c :
  c <> 34 -> c <> 92 -> 32 <= c ->
  lex_run (MStr acc) [c] = Some (MStr (acc ++ [c]), []).
Proof. intros. cbn [lex_run]. by rewrite step_plain. Qed.

Lemma lex_run_str_app acc pre mid rest s :
  lex_run (MStr acc) pre = Some (MStr (acc ++ mid), []) ->
  lex_run (MStr (acc ++ mid)) rest = Some (MStr ((acc ++ mid) ++ s), []) ->
  lex_run (MStr acc) (pre ++ rest) = Some (MStr (acc ++ mid ++ s), []).
Proof.
  intros H1 H2. rewrite (lex_run_app _ _ _ _ _ _ _ H1 H2).
  by rewrite <- app_assoc.
Qed.

Lemma lex_quote_units_bounded n : forall s acc,
  (length s <= n)%nat ->
  lex_run (MStr acc) (quote_units s) = Some (MStr (acc ++ s), []).
Proof.
  induction n as [|n IH]; intros s acc Hn.
  { destruct s; [| cbn in Hn; lia]. cbn. by rewrite app_nil_r. }
  destruct s as [|c s]; [cbn; by rewrite app_nil_r |].
  cbn in Hn. cbn [quote_units].
  assert (Hrest : forall pre,
            lex_run (MStr acc) pre = Some (MStr (acc ++ [c]), []) ->
            lex_run (MStr acc) (pre ++ quote_units s)
            = Some (MStr (acc ++ c :: s), [])).
  { intros pre Hpre.
    apply (lex_run_str_app acc pre [c] _ s Hpre). apply IH. lia. }
  destruct (is_high_surrogate c) eqn:Hh.
  - destruct (surrogate_bounds c) as (? & ? & ? & ?); [by rewrite Hh |].
    destruct s as [|d s'].
    + by apply lex_unicode_escape.
    + destruct (is_low_surrogate d) eqn:Hl.
      * destruct (surrogate_bounds d) as (? & ? & ? & ?);
          [by rewrite Hl, orb_true_r |].
        apply (lex_run_str_app acc [c] [c] (d :: quote_units s') (d :: s'));
          [by apply lex_plain |].
        apply (lex_run_str_app (acc ++ [c]) [d] [d] (quote_units s') s');
          [by apply lex_plain |].
        apply IH. cbn in Hn. lia.
      * apply Hrest. by apply lex_unicode_escape.
  - destruct (is_low_surrogate c) eqn:Hl.
    + destruct (surrogate_bounds c) as (? & ? & ? & ?);
        [by rewrite Hl, orb_true_r |].
      apply Hrest. by apply lex_unicode_escape.
    + apply Hrest. apply lex_quote_unit.
Qed.

Lemma lex_quote s : lex_run MTop (quote s) = Some (MTop, [TString s]).
Proof.
  unfold quote.
  apply (lex_run_cons _ _ _ (MStr []) [] _ [TString s]); [done |].
  apply (lex_run_app _ _ _ (MStr s) [] _ [TString s]).
  - apply (lex_quote_units_bounded (length s) s []). lia.
  - cbn. done.
Qed.

End Lexing.

Section LexingNumbers.

Lemma nzhead_not_D0 u u' : Decimal.nzhead u <> Decimal.D0 u'.
Proof. induction u; cbn; congruence. Qed.

Lemma to_uint_head p :
  match Pos.to_uint p with
  | Decimal.Nil | Decimal.D0 _ => False
  | _ => True
  end.
Proof.
  pose proof (DecimalPos.Unsigned.to_of (Pos.to_uint p)) as H.
  rewrite DecimalPos.Unsigned.of_to in H. cbn in H.
  pose proof (DecimalPos.Unsigned.to_uint_nonzero p) as Hz.
  pose proof (DecimalPos.Unsigned.to_uint_nonnil p) as Hn.
  destruct (Pos.to_uint p) as [|u| | | | | | | | |] eqn:E; try done.
  unfold Decimal.unorm in H. cbn in H.
  destruct (Decimal.nzhead u) eqn:Eu; try done.
  by apply nzhead_not_D0 in Eu.
Qed.

Lemma lex_digit_cons neg q c s q' m :
  48 <= c <= 57 ->
  10 * Npos q + (c - 48) = Npos q' ->
  lex_run (MNum (NInt neg (Npos q'))) s = Some (m, []) ->
  lex_run (MNum (NInt neg (Npos q))) (c :: s) = Some (m, []).
Proof.
  intros [H1 H2] Hq Hs. cbn [lex_run]. unfold step, number_step, is_digit.
  destruct (N.leb_spec 48 c); [| lia]. destruct (N.leb_spec c 57); [| lia].
  cbn [andb]. rewrite Hq. cbn. by rewrite Hs.
Qed.

Lemma lex_digits neg u : forall q,
  lex_run (MNum (NInt neg (Npos q))) (uint_units u)
  = Some (MNum (NInt neg (Npos (Pos.of_uint_acc u q))), []).
Proof.
  induction u as [|u IH|u IH|u IH|u IH|u IH|u IH|u IH|u IH|u IH|u IH];
    intros q; [done | ..]; cbn [uint_units Pos.of_uint_acc];
    (eapply lex_digit_cons; [lia | | apply IH]); lia.
Qed.

(** The digits of a positive number, after a minus sign or not, where the
    text goes on with a closing brace. *)
Lemma lex_positive (neg : bool) p :
  lex_run (if neg then MNum NMinus else MTop)
    (uint_units (Pos.to_uint p) ++ [125])
  = Some (MTop, [TNumber (signed neg (Npos p)) 0; TRBrace]).
Proof.
  pose proof (to_uint_head p) as Hhead.
  pose proof (DecimalPos.Unsigned.of_to p) as Hof.
  assert (Hend : forall q,
            lex_run (MNum (NInt neg (Npos q))) [125]
            = Some (MTop, [TNumber (signed neg (Npos q)) 0; TRBrace])) by done.
  destruct (Pos.to_uint p) as [|u|u|u|u|u|u|u|u|u|u]; try done;
    cbn in Hof; injection Hof as Hof;
    cbn [uint_units app];
    match type of Hof with
    | Pos.of_uint_acc _ ?k = _ =>
        apply (lex_run_cons _ _ _ (MNum (NInt neg (Npos k))) [] MTop
                 [TNumber (signed neg (Npos p)) 0; TRBrace]);
        [by destruct neg |];
        rewrite (lex_run_app _ _ _ _ _ _ _ (lex_digits neg u k) (Hend _));
        by rewrite Hof
    end.
Qed.

Lemma lex_number (n : Z) :
  lex_run MTop (number_to_string n ++ [125])
  = Some (MTop, [TNumber n 0; TRBrace]).
Proof.
  destruct n as [|p|p]; [done | |]; cbn [number_to_string N.to_uint].
  - apply (lex_positive false p).
  - apply (lex_run_cons _ _ _ (MNum NMinus) [] MTop); [done |].
    apply (lex_positive true p).
Qed.

End LexingNumbers.

Section RoundTrip.

Lemma lex_run_app_eq m s1 s2 m1 t1 :
  lex_run m s1 = Some (m1, t1) ->
  lex_run m (s1 ++ s2)
  = '(m2, t2) ← lex_run m1 s2; Some (m2, t1 ++ t2).
Proof.
  intros H1. destruct (lex_run m1 s2) as [[m2 t2]|] eqn:H2; cbn.
  - by apply lex_run_app with (m1 := m1).
  - revert m t1 H1. induction s1 as [|c s1 IH]; intros m t1 H1; cbn in *.
    + injection H1 as -> <-. by rewrite H2.
    + destruct (step m c) as [[m' ts]|]; [| done]. cbn in *.
      destruct (lex_run m' s1) as [[m'' ts']|] eqn:E; [| done]. cbn in *.
      injection H1 as -> <-. by rewrite (IH _ _ E).
Qed.

Lemma lex_item (i : Item) :
  lex_run MTop (stringify_item i) = Some (MTop, item_tokens i).
Proof.
  unfold stringify_item.
  repeat (erewrite lex_run_app_eq; [| first [apply lex_quote | reflexivity]]).
  by rewrite lex_number.
Qed.

Lemma lex_tail (items : list Item) :
  lex_run MTop (stringify_tail items) = Some (MTop, tail_tokens items).
Proof.
  induction items as [|i items IH]; [done |]. cbn [stringify_tail tail_tokens].
  erewrite lex_run_app_eq by reflexivity.
  erewrite lex_run_app_eq by apply lex_item.
  by rewrite IH.
Qed.

Lemma parse_item (i : Item) stk rest :
  prun (PValue stk) (item_tokens i ++ rest)
  = prun (plug (item_json i) stk) rest.
Proof. reflexivity. Qed.

Lemma parse_tail (items : list Item) acc :
  prun (PAfterElement acc []) (tail_tokens items)
  = Some (PDone (JArray (acc ++ (item_json <$> items)))).
Proof.
  revert acc. induction items as [|i items IH]; intros acc.
  - cbn. by rewrite app_nil_r.
  - cbn [tail_tokens prun pstep mbind option_bind].
    rewrite parse_item. cbn [plug]. rewrite IH.
    by rewrite <- app_assoc.
Qed.

Lemma JSON_parse_stringify (items : list Item) :
  JSON_parse (JSON_stringify items) = Some (items_json items).
Proof.
  unfold JSON_parse, JSON_stringify. destruct items as [|i items]; [done |].
  rewrite (lex_of_run _ _ (TLBracket :: item_tokens i ++ tail_tokens items)).
  2: { erewrite lex_run_app_eq by reflexivity.
       erewrite lex_run_app_eq by apply lex_item.
       by rewrite lex_tail. }
  cbn [mbind option_bind prun pstep value_start].
  change (prun (PArrayOpen []) (item_tokens i ++ tail_tokens items))
    with (prun (PValue [FArray []]) (item_tokens i ++ tail_tokens items)).
  rewrite parse_item. cbn [plug]. by rewrite parse_tail.
Qed.

Lemma as_item_json (i : Item) : as_item (item_json i) = Some i.
Proof.
  destruct i as [id ty t p n].
  change (as_item _) with
    (ty' ← as_type (type_string ty);
     n' ← number_integer n 0;
     Some {| WatchlistItem.id := id; WatchlistItem.type := ty';
             WatchlistItem.title := t; WatchlistItem.poster_path := p;
             WatchlistItem.addedAt := n' |}).
  replace (as_type (type_string ty)) with (Some ty) by (by destruct ty).
  replace (number_integer n 0) with (Some n); [done |].
  unfold number_integer. change (0 <=? 0)%Z with true. cbv iota.
  by rewrite Z.pow_0_r, Z.mul_1_r.
Qed.

Lemma as_items_json (items : list Item) :
  as_items (items_json items) = Some items.
Proof.
  unfold as_items, items_json. apply mapM_Some_2.
  induction items as [|i items IH]; constructor; [apply as_item_json | done].
Qed.

Lemma JSON_stringify_not_empty (items : list Item) :
  falsy (JSON_stringify items) = false.
Proof. by destruct items. Qed.

End RoundTrip.

(** ** The store never throws *)

Section StoreFacts.

Lemma saveWatchlist_returns (items : list Item) (w : World) :
  exists w', saveWatchlist items w = Ok w'.
Proof.
  unfold saveWatchlist, setItem.
  destruct (blocked _); cbn; [by eexists |].
  destruct (_ <? _); cbn; by eexists.
Qed.

Lemma saveWatchlist_written (items : list Item) (w : World) (ls : Storage) :
  setItem (localStorage w) WATCHLIST_KEY (JSON_stringify items) = Ok ls ->
  saveWatchlist items w = Ok (with_storage w ls) /\
  entries ls !! WATCHLIST_KEY = Some (JSON_stringify items) /\
  blocked ls = false.
Proof.
  unfold saveWatchlist. intros H. rewrite H. split; [done |].
  unfold setItem in H. destruct (blocked _) eqn:Hb; [done |].
  destruct (_ <? _); [done |]. injection H as <-. cbn.
  by rewrite lookup_insert_eq.
Qed.

Lemma saveWatchlist_keeps_entry (items : list Item) (w w' : World) :
  saveWatchlist items w = Ok w' ->
  is_Some (entries (localStorage w) !! WATCHLIST_KEY) ->
  is_Some (entries (localStorage w') !! WATCHLIST_KEY).
Proof.
  unfold saveWatchlist, setItem.
  destruct (blocked _); cbn; [by intros [= <-] |].
  destruct (_ <? _); cbn; intros [= <-]; [done |].
  cbn. rewrite lookup_insert_eq. by eexists.
Qed.

Lemma clearWatchlistStorage_returns (w : World) :
  exists w', clearWatchlistStorage w = Ok w' /\
    (blocked (localStorage w) = false ->
     entries (localStorage w') !! WATCHLIST_KEY = None).
Proof.
  unfold clearWatchlistStorage, removeItem.
  destruct (blocked _); cbn; eexists; (split; [done |]); [done |].
  intros _. cbn. apply lookup_delete_eq.
Qed.

(** The tests of [src/context/__tests__/watchlistContext.test.ts]. *)
Example test_load_empty :
  loadWatchlist Examples.empty_storage = Ok (JArray []).
Proof. reflexivity. Qed.

Example test_load_corrupted :
  loadWatchlist Examples.corrupted_storage = Ok (JArray []).
Proof. reflexivity. Qed.

Example test_save_then_load :
  bind (saveWatchlist [Examples.item "550" movie "Fight Club" 1698432000000]
          Examples.empty_storage) loadWatchlist
  = Ok (items_json [Examples.item "550" movie "Fight Club" 1698432000000]).
Proof. vm_compute. reflexivity. Qed.

Example test_clear :
  bind (bind (saveWatchlist
                [Examples.item "550" movie "Fight Club" 1698432000000]
                Examples.empty_storage) clearWatchlistStorage)
    (fun w => getItem (localStorage w) WATCHLIST_KEY)
  = Ok None.
Proof. vm_compute. reflexivity. Qed.

End StoreFacts.

(** ** The claims on the store *)

Section StoreClaims.




(** C8. When the write of [saveWatchlist(c)] succeeds, [loadWatchlist]
    after it returns the array of the items of [c]: the same items, with
    the same fields, in the same order. *)
Theorem C8_load_after_save (c : list Item) (w : World) (ls : Storage) :
  setItem (localStorage w) WATCHLIST_KEY (JSON_stringify c) = Ok ls ->
  exists w',
    saveWatchlist c w = Ok w' /\
    loadWatchlist w' = Ok (items_json c) /\
    as_items (items_json c) = Some c.
Proof.
  intros Hset.
  destruct (saveWatchlist_written c w ls Hset) as (Hsave & Hentry & Hblocked).
  exists (with_storage w ls). split; [done |]. split; [| apply as_items_json].
  unfold loadWatchlist, getItem, parse. cbn. rewrite Hblocked, Hentry. cbn.
  by rewrite JSON_stringify_not_empty, JSON_parse_stringify.
Qed.

Lemma C8_witness :
  exists w',
    saveWatchlist Examples.two_items Examples.empty_storage = Ok w' /\
    loadWatchlist w' = Ok (items_json Examples.two_items) /\
    as_items (items_json Examples.two_items) = Some Examples.two_items.
Proof.
  eapply (C8_load_after_save Examples.two_items Examples.empty_storage).
  vm_compute. reflexivity.
Defined.

End StoreClaims.

(** ** The updaters of [addToWatchlist] and [removeFromWatchlist] *)

Section Updaters.
Import WatchlistProvider.

Lemma isInWatchlist_elem (c : list Item) (id : jsstring) :
  isInWatchlist c id = true <-> id ∈ ids c.
Proof.
  unfold isInWatchlist, ids. rewrite existsb_exists, list_elem_of_fmap.
  split.
  - intros (x & Hin & Hx). exists x. apply bool_decide_eq_true in Hx.
    split; [done | by apply list_elem_of_In].
  - intros (x & -> & Hin). exists x.
    split; [by apply list_elem_of_In | by apply bool_decide_eq_true].
Qed.

Lemma add_existing mv type now prev :
  isInWatchlist prev (IMovie.id mv) = true ->
  addToWatchlist_updater mv type now prev = prev.
Proof.
  unfold addToWatchlist_updater, isInWatchlist. by intros ->.
Qed.

Lemma add_new mv type now prev :
  isInWatchlist prev (IMovie.id mv) = false ->
  addToWatchlist_updater mv type now prev = newItem mv type now :: prev.
Proof.
  unfold addToWatchlist_updater, isInWatchlist. by intros ->.
Qed.

Lemma remove_ids id c :
  ids (removeFromWatchlist_updater id c)
  = List.filter (fun i => negb (bool_decide (i = id))) (ids c).
Proof.
  unfold removeFromWatchlist_updater, ids.
  induction c as [|x c IH]; [done |]. cbn.
  unfold has_id at 1. destruct (bool_decide _); cbn; by rewrite ?IH.
Qed.

Lemma remove_absent id c :
  isInWatchlist c id = false -> removeFromWatchlist_updater id c = c.
Proof.
  unfold isInWatchlist, removeFromWatchlist_updater.
  induction c as [|x c IH]; [done |]. cbn.
  destruct (has_id id x); cbn; [done |]. intros Hc. by rewrite IH.
Qed.

Lemma getFiltered_passes c filter :
  getFiltered c filter = List.filter (passes filter) c.
Proof.
  destruct filter; cbn; [| done].
  induction c as [|x c IH]; cbn; [done | by rewrite <- IH].
Qed.

Lemma List_filter_comm {A} (f g : A -> bool) (l : list A) :
  List.filter f (List.filter g l) = List.filter g (List.filter f l).
Proof.
  induction l as [|x l IH]; [done |]. cbn.
  destruct (f x) eqn:Hf, (g x) eqn:Hg; cbn; rewrite ?Hf, ?Hg, IH; done.
Qed.

Lemma NoDup_List_filter {A} (f : A -> bool) (l : list A) :
  NoDup l -> NoDup (List.filter f l).
Proof.
  induction 1 as [|x l Hx Hl IH]; cbn; [constructor |].
  destruct (f x); [| done]. constructor; [| done].
  rewrite list_elem_of_In, filter_In, <- list_elem_of_In. tauto.
Qed.

Lemma add_preserves_NoDup mv type now c :
  NoDup (ids c) -> NoDup (ids (addToWatchlist_updater mv type now c)).
Proof.
  intros Hc. destruct (isInWatchlist c (IMovie.id mv)) eqn:E.
  - by rewrite add_existing.
  - rewrite add_new by done. cbn. constructor; [| done].
    rewrite <- isInWatchlist_elem. congruence.
Qed.

Lemma remove_preserves_NoDup id c :
  NoDup (ids c) -> NoDup (ids (removeFromWatchlist_updater id c)).
Proof. intros Hc. rewrite remove_ids. by apply NoDup_List_filter. Qed.

End Updaters.

(** ** The claims on the updaters *)

Section UpdaterClaims.
Import WatchlistProvider.

(** C4. Adding a candidate whose id is already in the collection gives back
    the collection as it is: the same items in the same order with the same
    fields, the [addedAt] of the item that was there included.  So two adds
    of one candidate, from the empty collection, leave one item, whose
    [addedAt] is the time the first updater read. *)
Theorem C4_add_existing_is_noop (mv : IMovie.t) (type : MediaType) :
  (forall now prev,
     isInWatchlist prev (IMovie.id mv) = true ->
     addToWatchlist_updater mv type now prev = prev) /\
  (forall first second,
     let twice :=
       addToWatchlist_updater mv type second
         (addToWatchlist_updater mv type first []) in
     getCount twice = 1%nat /\
     WatchlistItem.addedAt <$> twice = [first] /\
     twice = addToWatchlist_updater mv type first []) /\
  (forall w first second,
     Lifecycle.pending
       (Lifecycle.addToWatchlist mv type second
          (Lifecycle.addToWatchlist mv type first (Examples.idle w)))
     = [newItem mv type first]).
Proof.
  assert (Hin : forall first,
            isInWatchlist (addToWatchlist_updater mv type first [])
              (IMovie.id mv) = true).
  { intros first. cbn. unfold has_id. by rewrite bool_decide_true. }
  split; [intros; by apply add_existing |]. split.
  - intros first second twice. subst twice. by rewrite add_existing.
  - intros w first second. unfold Lifecycle.pending. cbn.
    apply add_existing, (Hin first).
Qed.

Lemma C4_witness :
  addToWatchlist_updater Examples.fight_club movie 2000
    [Examples.item "550" movie "Fight Club" 1000]
  = [Examples.item "550" movie "Fight Club" 1000].
Proof.
  apply (proj1 (C4_add_existing_is_noop Examples.fight_club movie)).
  reflexivity.
Defined.

(** C5. No collection built from the empty one by adds and removes has two
    items with the same id, and each of the two updaters keeps the ids of
    any collection distinct. *)
Theorem C5_ids_are_unique :
  (forall c, reachable c -> NoDup (ids c)) /\
  (forall mv type now c,
     NoDup (ids c) -> NoDup (ids (addToWatchlist_updater mv type now c))) /\
  (forall id c,
     NoDup (ids c) -> NoDup (ids (removeFromWatchlist_updater id c))).
Proof.
  split; [| split].
  - induction 1 as [| mv type now c _ IH | id c _ IH].
    + constructor.
    + by apply add_preserves_NoDup.
    + by apply remove_preserves_NoDup.
  - intros. by apply add_preserves_NoDup.
  - intros. by apply remove_preserves_NoDup.
Qed.

Lemma C5_witness :
  NoDup (ids (addToWatchlist_updater Examples.fight_club movie 3
           (removeFromWatchlist_updater (js "550")
              (addToWatchlist_updater Examples.breaking_bad tv 2
                 (addToWatchlist_updater Examples.fight_club movie 1 []))))).
Proof.
  apply (proj1 C5_ids_are_unique).
  repeat constructor.
Defined.

(** C6. Adding a candidate whose id is not in the collection puts the new
    item first and leaves the items that were there after it, as they were
    and in their order. *)
Theorem C6_add_prepends (mv : IMovie.t) (type : MediaType) (now : Z)
    (prev : list Item) :
  isInWatchlist prev (IMovie.id mv) = false ->
  addToWatchlist_updater mv type now prev = newItem mv type now :: prev /\
  head (addToWatchlist_updater mv type now prev) = Some (newItem mv type now) /\
  tail (addToWatchlist_updater mv type now prev) = prev.
Proof.
  intros H. by rewrite add_new.
Qed.

Lemma C6_witness :
  addToWatchlist_updater Examples.breaking_bad tv 2000
    [Examples.item "550" movie "Fight Club" 1000]
  = newItem Examples.breaking_bad tv 2000
      :: [Examples.item "550" movie "Fight Club" 1000].
Proof.
  apply (C6_add_prepends Examples.breaking_bad tv 2000).
  reflexivity.
Defined.

(** C9, as the specification states it, fails: a candidate whose
    [original_title] and [name] are both empty is stored with an empty
    label. *)
Lemma C9_label_can_be_empty :
  ~ (forall mv type now,
       Forall (fun i => WatchlistItem.title i <> [])
         (addToWatchlist_updater mv type now [])).
Proof.
  intros H. specialize (H Examples.untitled movie 0%Z).
  inversion H as [| ? ? Hhd]. by apply Hhd.
Qed.

(** C9, amended. The label of the item an add stores is the candidate's
    [original_title] when that string is not empty, and its [name]
    otherwise; it is not empty exactly when one of the two is not, and
    then the labels of a collection stay non-empty. *)
Theorem C9_label_resolution (mv : IMovie.t) (type : MediaType) (now : Z)
    (prev : list Item) :
  isInWatchlist prev (IMovie.id mv) = false ->
  let label :=
    if decide (IMovie.original_title mv = []) then IMovie.name mv
    else IMovie.original_title mv in
  addToWatchlist_updater mv type now prev
    = newItem mv type now :: prev /\
  WatchlistItem.title (newItem mv type now) = label /\
  (label <> [] <-> IMovie.original_title mv <> [] \/ IMovie.name mv <> []) /\
  (label <> [] ->
   Forall (fun i => WatchlistItem.title i <> []) prev ->
   Forall (fun i => WatchlistItem.title i <> [])
     (addToWatchlist_updater mv type now prev)).
Proof.
  intros H label.
  assert (Hl : WatchlistItem.title (newItem mv type now) = label).
  { subst label. cbn. unfold or_else.
    destruct (IMovie.original_title mv); by case_decide. }
  rewrite add_new by done. repeat split; try done.
  - subst label. case_decide; tauto.
  - subst label. case_decide; [| done]. intros [|]; congruence.
  - intros Hne Hprev. constructor; [by rewrite Hl | done].
Qed.

Lemma C9_witness :
  WatchlistItem.title (newItem Examples.breaking_bad tv 5) = js "Breaking Bad".
Proof.
  apply (C9_label_resolution Examples.breaking_bad tv 5 []).
  reflexivity.
Defined.

End UpdaterClaims.

(** ** [Array.prototype.sort]: the order it gives *)

Section SortFacts.
Import Host.
Context {A : Type} (compareFn : A -> A -> Z).

Lemma sort_insert_Permutation x l :
  Permutation (sort_insert compareFn x l) (x :: l).
Proof.
  induction l as [|y l IH]; cbn; [done |].
  destruct (0 <? compareFn x y)%Z; [| done].
  rewrite IH. apply perm_swap.
Qed.

Lemma sort_Permutation l : Permutation (sort compareFn l) l.
Proof.
  induction l as [|x l IH]; cbn; [done |].
  rewrite sort_insert_Permutation. by constructor.
Qed.

(** An element and the elements of its class that follow it: the sort
    leaves it before them. *)
Lemma sort_insert_filter (p : A -> bool) x l :
  (p x = true -> forall y, y ∈ l -> p y = true -> (compareFn x y <= 0)%Z) ->
  List.filter p (sort_insert compareFn x l) = List.filter p (x :: l).
Proof.
  induction l as [|y l IH]; intros Hle; [done |].
  cbn [sort_insert]. destruct (0 <? compareFn x y)%Z eqn:E.
  - apply Z.ltb_lt in E.
    cbn [List.filter]. rewrite IH.
    2: { intros Hx z Hz. apply Hle; [done | by constructor]. }
    cbn [List.filter].
    destruct (p x) eqn:Hx, (p y) eqn:Hy; try done.
    specialize (Hle eq_refl y (list_elem_of_here _ _) Hy). lia.
  - done.
Qed.

(** Stability: the elements of a class whose members the comparison does
    not tell apart come out in the order they came in. *)
Lemma sort_stable (p : A -> bool) l :
  (forall x y, p x = true -> p y = true -> (compareFn x y <= 0)%Z) ->
  List.filter p (sort compareFn l) = List.filter p l.
Proof.
  intros Hp. induction l as [|x l IH]; [done |].
  cbn [sort foldr]. rewrite sort_insert_filter by eauto.
  cbn [List.filter]. fold (sort compareFn l). by rewrite IH.
Qed.

Lemma sort_insert_Sorted x l :
  (forall a b, (0 < compareFn a b)%Z -> (compareFn b a <= 0)%Z) ->
  Sorted (fun a b => (compareFn a b <= 0)%Z) l ->
  Sorted (fun a b => (compareFn a b <= 0)%Z) (sort_insert compareFn x l).
Proof.
  intros Hanti. induction 1 as [|y l Hl IH Hhd]; cbn.
  - repeat constructor.
  - destruct (0 <? compareFn x y)%Z eqn:E.
    + apply Z.ltb_lt in E. constructor; [done |].
      destruct Hhd as [|z l' Hyz]; cbn.
      * constructor. by apply Hanti.
      * destruct (0 <? compareFn x z)%Z; constructor; [done | by apply Hanti].
    + apply Z.ltb_ge in E. repeat constructor; done.
Qed.

Lemma sort_Sorted l :
  (forall a b, (0 < compareFn a b)%Z -> (compareFn b a <= 0)%Z) ->
  Sorted (fun a b => (compareFn a b <= 0)%Z) (sort compareFn l).
Proof.
  intros Hanti. induction l as [|x l IH]; cbn; [constructor |].
  by apply sort_insert_Sorted.
Qed.
End SortFacts.

Lemma compare_units_antisym a b :
  Host.compare_units b a = CompOpp (Host.compare_units a b).
Proof.
  revert b. induction a as [|x a IH]; intros [|y b]; cbn; try done.
  rewrite (N.compare_antisym x y).
  destruct (x ?= y); cbn; [apply IH | done | done].
Qed.

Lemma localeCompare_antisym a b :
  Host.localeCompare b a = (- Host.localeCompare a b)%Z.
Proof.
  unfold Host.localeCompare.
  rewrite (compare_units_antisym (Host.fold_case <$> a)).
  rewrite (compare_units_antisym (Host.case_weight <$> a)).
  destruct (Host.compare_units (Host.fold_case <$> a) _); cbn; try done.
  by destruct (Host.compare_units (Host.case_weight <$> a) _).
Qed.

Lemma StronglySorted_weaken {A} (R1 R2 : A -> A -> Prop) l :
  (forall a b, R1 a b -> R2 a b) ->
  StronglySorted R1 l -> StronglySorted R2 l.
Proof.
  intros HR. induction 1 as [|x l Hl IH Hx]; constructor; [done |].
  eapply Forall_impl; [exact Hx | auto].
Qed.

Lemma sort_StronglySorted_by_key {A} (compareFn : A -> A -> Z) (key : A -> Z)
    (l : list A) :
  (forall a b, (0 < compareFn a b)%Z <-> (key b < key a)%Z) ->
  StronglySorted (fun a b => (key a <= key b)%Z) (Host.sort compareFn l).
Proof.
  intros Hkey.
  assert (Hle : forall a b, (compareFn a b <= 0)%Z <-> (key a <= key b)%Z).
  { intros a b. specialize (Hkey a b). lia. }
  apply StronglySorted_weaken
    with (R1 := fun a b => (compareFn a b <= 0)%Z); [intros; by apply Hle |].
  apply Sorted_StronglySorted.
  - intros a b c. rewrite !Hle. lia.
  - apply sort_Sorted. intros a b. rewrite Hkey, Hle. lia.
Qed.

(** ** The claims on [getSorted] *)

Section SortedClaims.
Import WatchlistProvider.

(** C7, as the specification states it, fails for the order by title: two
    labels that differ only in their case are not a tie for
    [localeCompare], and [getSorted] puts the lower case one first
    whatever the order they came in. *)
Lemma C7_case_is_not_a_tie :
  ~ (forall (itemsToSort : list Item) (label : jsstring),
       let tie i := bool_decide (normalized i = label) in
       List.filter tie (getSorted Host.localeCompare itemsToSort by_title)
       = List.filter tie itemsToSort).
Proof.
  intros H.
  specialize (H [Examples.item "1" movie "Apple" 100;
                 Examples.item "2" movie "apple" 200] (js "apple")).
  vm_compute in H. discriminate H.
Qed.

(** C7, amended. [getSorted] gives a permutation of its input: by
    [addedAt] descending for [date-new] and ascending for [date-old]; for
    [title], in the order of [localeCompare] on the labels, the collation
    of the host.  The items the comparison does not tell apart (the same
    [addedAt]; labels [localeCompare] finds equal, which labels that differ
    in case are not) keep the order of the input.  The two examples hold,
    the second in the default collation. *)
Theorem C7_getSorted (localeCompare : jsstring -> jsstring -> Z)
    (itemsToSort : list Item) :
  (let out := getSorted localeCompare itemsToSort date_new in
   Permutation out itemsToSort /\
   StronglySorted
     (fun a b => (WatchlistItem.addedAt b <= WatchlistItem.addedAt a)%Z) out /\
   forall t, List.filter (same_time t) out
             = List.filter (same_time t) itemsToSort) /\
  (let out := getSorted localeCompare itemsToSort date_old in
   Permutation out itemsToSort /\
   StronglySorted
     (fun a b => (WatchlistItem.addedAt a <= WatchlistItem.addedAt b)%Z) out /\
   forall t, List.filter (same_time t) out
             = List.filter (same_time t) itemsToSort) /\
  (let out := getSorted localeCompare itemsToSort by_title in
   let le a b :=
     (localeCompare (WatchlistItem.title a) (WatchlistItem.title b) <= 0)%Z in
   Permutation out itemsToSort /\
   ((forall a b, (0 < localeCompare a b)%Z -> (localeCompare b a <= 0)%Z) ->
    Sorted le out) /\
   forall tie : Item -> bool,
     (forall a b, tie a = true -> tie b = true -> le a b) ->
     List.filter tie out = List.filter tie itemsToSort) /\
  WatchlistItem.addedAt <$>
    getSorted localeCompare
      [Examples.item "1" movie "a" 100; Examples.item "2" movie "b" 300;
       Examples.item "3" movie "c" 200] date_new
    = [300; 200; 100]%Z /\
  WatchlistItem.title <$>
    getSorted Host.localeCompare
      [Examples.item "1" movie "Banana" 1; Examples.item "2" movie "apple" 2;
       Examples.item "3" movie "Cherry" 3] by_title
    = [js "apple"; js "Banana"; js "Cherry"].
Proof.
  split; [| split; [| split; [| split]]].
  - cbn zeta. unfold getSorted. split; [apply sort_Permutation |]. split.
    + apply StronglySorted_weaken
        with (R1 := fun a b => (- WatchlistItem.addedAt a
                                <= - WatchlistItem.addedAt b)%Z);
        [intros; lia |].
      apply (sort_StronglySorted_by_key _
               (fun i => (- WatchlistItem.addedAt i)%Z)).
      intros; lia.
    + intros t. apply sort_stable. unfold same_time.
      intros x y Hx%bool_decide_eq_true Hy%bool_decide_eq_true. lia.
  - cbn zeta. unfold getSorted. split; [apply sort_Permutation |]. split.
    + apply (sort_StronglySorted_by_key _ WatchlistItem.addedAt).
      intros; lia.
    + intros t. apply sort_stable. unfold same_time.
      intros x y Hx%bool_decide_eq_true Hy%bool_decide_eq_true. lia.
  - cbn zeta. unfold getSorted. split; [apply sort_Permutation |]. split.
    + intros Hanti.
      apply (sort_Sorted (fun a b =>
               localeCompare (WatchlistItem.title a) (WatchlistItem.title b))).
      intros a b. apply Hanti.
    + intros tie Htie. by apply sort_stable.
  - reflexivity.
  - vm_compute. reflexivity.
Qed.

Lemma C7_witness :
  Sorted
    (fun a b =>
       (Host.localeCompare (WatchlistItem.title a) (WatchlistItem.title b)
        <= 0)%Z)
    (getSorted Host.localeCompare
       [Examples.item "1" movie "Banana" 1; Examples.item "2" movie "apple" 2;
        Examples.item "3" movie "Cherry" 3] by_title).
Proof.
  apply (C7_getSorted Host.localeCompare).
  intros a b. rewrite (localeCompare_antisym a b). lia.
Defined.

End SortedClaims.

(** ** The claim on [getFiltered] *)

Section FilteredClaims.
Import Arrays.

Lemma alloc_fresh (elements : list Item) (h : heap) :
  h !! (alloc elements h).1 = None.
Proof. cbn. apply not_elem_of_dom, is_fresh. Qed.

Lemma read_alloc (elements : list Item) (h : heap) :
  read (alloc elements h).2 (alloc elements h).1 = elements.
Proof. unfold read. cbn. by rewrite lookup_insert_eq. Qed.

Lemma read_alloc_other (elements : list Item) (h : heap) (l : loc) :
  is_Some (h !! l) -> (alloc elements h).2 !! l = h !! l.
Proof.
  intros Hl. cbn. apply lookup_insert_ne. intros E.
  pose proof (alloc_fresh elements h) as Hf. cbn in Hf.
  rewrite E in Hf. rewrite Hf in Hl. by destruct Hl.
Qed.

Lemma read_mutate (l : loc) f (h : heap) : read (mutate l f h) l = f (read h l).
Proof. unfold mutate, read at 1. by rewrite lookup_insert_eq. Qed.

Lemma read_mutate_other (l l' : loc) f (h : heap) :
  l <> l' -> read (mutate l f h) l' = read h l'.
Proof. intros Hne. unfold mutate, read. by rewrite lookup_insert_ne. Qed.

(** What [items.filter((item) => item.type === filter)] keeps, said without
    the filter: the items of type [t], and among the subsequences of the
    array that hold only items of type [t], the longest one. *)
Lemma filter_type_only (t : MediaType) (c : list Item) :
  Forall (fun item => WatchlistItem.type item = t)
    (List.filter (WatchlistProvider.has_type t) c).
Proof.
  induction c as [|x c IH]; cbn [List.filter]; [constructor |].
  unfold WatchlistProvider.has_type at 1.
  destruct (bool_decide_reflect (WatchlistItem.type x = t)); [| done].
  by constructor.
Qed.

Lemma filter_type_sublist (t : MediaType) (c : list Item) :
  sublist (List.filter (WatchlistProvider.has_type t) c) c.
Proof.
  induction c as [|x c IH]; cbn [List.filter]; [constructor |].
  destruct (WatchlistProvider.has_type t x);
    [by apply sublist_skip | by apply sublist_cons].
Qed.

Lemma filter_type_greatest (t : MediaType) (c l : list Item) :
  sublist l c ->
  Forall (fun item => WatchlistItem.type item = t) l ->
  sublist l (List.filter (WatchlistProvider.has_type t) c).
Proof.
  intros Hsub. induction Hsub as [| x l c Hsub IH | x l c Hsub IH];
    intros Hall; cbn [List.filter].
  - constructor.
  - apply Forall_cons in Hall as [Hx Hall].
    unfold WatchlistProvider.has_type at 1.
    rewrite bool_decide_eq_true_2 by done.
    apply sublist_skip. by apply IH.
  - destruct (WatchlistProvider.has_type t x);
      [apply sublist_cons |]; by apply IH.
Qed.

Lemma filter_type_keeps (t : MediaType) (c : list Item) (item : Item) :
  item ∈ List.filter (WatchlistProvider.has_type t) c <->
  item ∈ c /\ WatchlistItem.type item = t.
Proof.
  rewrite !list_elem_of_In, filter_In. unfold WatchlistProvider.has_type.
  by rewrite bool_decide_eq_true.
Qed.

(** C10. [getFiltered('all')] returns the array [items] of the render
    itself: the same location, nothing allocated; so what a caller changes
    in the array it got is changed in [items].  [getFiltered('movie')] and
    [getFiltered('tv')] return a new array; a change made to it leaves
    [items] as it was.  The new array holds exactly the items of that type
    in the order of [items]: each of its elements has the type asked for, it
    is a subsequence of [items], every item of [items] with that type is in
    it, every subsequence of [items] made of items of that type is a
    subsequence of it, and the array for the other type shares no element
    with it. *)
Theorem C10_getFiltered_aliasing (h : heap) (items : loc) :
  is_Some (h !! items) ->
  (getFiltered items all h = (items, h) /\
   read h items = WatchlistProvider.getFiltered (read h items) all /\
   forall f,
     read (mutate (getFiltered items all h).1 f (getFiltered items all h).2)
       items
     = f (read h items)) /\
  (forall t,
     let r := (getFiltered items (only t) h).1 in
     let h' := (getFiltered items (only t) h).2 in
     h !! r = None /\
     r <> items /\
     read h' r = WatchlistProvider.getFiltered (read h items) (only t) /\
     (forall l, is_Some (h !! l) -> h' !! l = h !! l) /\
     (forall f, read (mutate r f h') items = read h items) /\
     read h' r
     = List.filter (fun item => bool_decide (WatchlistItem.type item = t))
         (read h items) /\
     Forall (fun item => WatchlistItem.type item = t) (read h' r) /\
     sublist (read h' r) (read h items) /\
     (forall item,
        item ∈ read h items -> WatchlistItem.type item = t ->
        item ∈ read h' r) /\
     (forall l,
        sublist l (read h items) ->
        Forall (fun item => WatchlistItem.type item = t) l ->
        sublist l (read h' r)) /\
     (forall t' item,
        t' <> t -> item ∈ read h' r ->
        item ∈ read (getFiltered items (only t') h).2
                 (getFiltered items (only t') h).1 ->
        False)).
Proof.
  intros Hitems. split.
  - split; [done |]. split; [done |]. intros f. cbn. apply read_mutate.
  - intros t r h'. subst r h'. cbn [getFiltered WatchlistProvider.getFiltered].
    assert (Hne : forall elements, (alloc elements h).1 <> items).
    { intros elements E. pose proof (alloc_fresh elements h) as Hf.
      rewrite E in Hf. rewrite Hf in Hitems. by destruct Hitems. }
    split; [apply alloc_fresh |]. split; [apply Hne |].
    split; [apply read_alloc |].
    split; [intros l Hl; by apply read_alloc_other |].
    split.
    { intros f. rewrite read_mutate_other by apply Hne.
      unfold read. by rewrite read_alloc_other. }
    rewrite !read_alloc.
    split; [done |].
    split; [apply filter_type_only |].
    split; [apply filter_type_sublist |].
    split; [intros item Hin Ht; by apply filter_type_keeps |].
    split; [intros l; apply filter_type_greatest |].
    intros t' item Hdiff [_ Ht]%filter_type_keeps.
    rewrite read_alloc. intros [_ Ht']%filter_type_keeps. congruence.
Qed.

Lemma C10_witness :
  let fc := Examples.item "550" movie "Fight Club" 1 in
  let bb := Examples.item "1399" tv "Breaking Bad" 2 in
  let se := Examples.item "807" movie "Se7en" 3 in
  let h : heap := {[ 0%nat := [fc; bb; se] ]} in
  read (mutate (getFiltered 0%nat all h).1 (fun _ => [])
          (getFiltered 0%nat all h).2) 0%nat
  = [] /\
  read (getFiltered 0%nat (only movie) h).2 (getFiltered 0%nat (only movie) h).1
  = [fc; se] /\
  read (getFiltered 0%nat (only tv) h).2 (getFiltered 0%nat (only tv) h).1
  = [bb] /\
  read (mutate (getFiltered 0%nat (only movie) h).1 (fun _ => [])
          (getFiltered 0%nat (only movie) h).2) 0%nat
  = [fc; bb; se].
Proof.
  intros fc bb se h.
  destruct (C10_getFiltered_aliasing h 0%nat ltac:(by eexists))
    as [(_ & _ & Hall) Hkind].
  split; [apply Hall |].
  destruct (Hkind movie) as (_ & _ & _ & _ & Hkept & Hmovies & _).
  destruct (Hkind tv) as (_ & _ & _ & _ & _ & Hseries & _).
  split; [rewrite Hmovies; reflexivity |].
  split; [rewrite Hseries; reflexivity |].
  rewrite Hkept. reflexivity.
Defined.

End FilteredClaims.

(** ** The provider at run time *)

Section LifecycleFacts.
Import Lifecycle.

Lemma process_items q s b :
  (process q s b).1 = foldl (fun s u => apply_update u s) s q.
Proof.
  revert s b. induction q as [|u q IH]; intros; cbn; [done | apply IH].
Qed.

Lemma pending_setItems u p :
  pending (setItems u p) = apply_update u (pending p).
Proof.
  unfold pending. rewrite !process_items. cbn. by rewrite foldl_app.
Qed.

Lemma render_returns p :
  exists w,
    render p = Ok ({| state := pending p; queue := []; world := w |},
                   {| items := pending p |}) /\
    (is_Some (entries (localStorage (world p)) !! WATCHLIST_KEY) ->
     is_Some (entries (localStorage w) !! WATCHLIST_KEY)).
Proof.
  unfold render, pending.
  destruct (process (queue p) (state p) false) as [its changed]. cbn.
  destruct changed.
  - destruct (saveWatchlist_returns its (world p)) as [w Hw].
    exists w. rewrite Hw. split; [done |].
    by apply saveWatchlist_keeps_entry with (items := its).
  - by exists (world p).
Qed.

Lemma run_calls_keep_entry cs p :
  is_Some (entries (localStorage (world p)) !! WATCHLIST_KEY) ->
  exists p', run_calls cs p = Ok p' /\
    is_Some (entries (localStorage (world p')) !! WATCHLIST_KEY).
Proof.
  revert p. induction cs as [|c cs IH]; intros p Hp; cbn; [by eexists |].
  destruct (render_returns (run_call c p)) as (w & -> & Hw). cbn.
  apply IH. cbn. apply Hw. by destruct c.
Qed.

(** Mounting on a storage that holds the snapshot of [c]: the first render
    has no item, and the one after it has the items of [c]. *)
Lemma mount_hydrates (c : list Item) (w : World) :
  blocked (localStorage w) = false ->
  entries (localStorage w) !! WATCHLIST_KEY = Some (JSON_stringify c) ->
  exists p, mount w = Ok (Some (p, {| items := [] |})) /\ pending p = c.
Proof.
  intros Hb He. unfold mount.
  assert (Hload : loadWatchlist w = Ok (items_json c)).
  { unfold loadWatchlist, getItem, parse. rewrite Hb, He. cbn.
    by rewrite JSON_stringify_not_empty, JSON_parse_stringify. }
  rewrite Hload. cbn [bind].
  destruct (saveWatchlist_returns [] w) as [w' ->]. cbn [bind].
  rewrite as_items_json. cbn. by eexists.
Qed.

End LifecycleFacts.

(** ** The claims on the Facade *)

Section FacadeClaims.
Import Lifecycle WatchlistProvider.

(** C1. The [value] of the provider offers [addToWatchlist] and
    [removeFromWatchlist] and no operation that clears: whatever calls are
    made on a provider whose snapshot is stored, the entry under the key is
    still there; removing the last item leaves the snapshot of the empty
    array, not no entry.  [clearWatchlistStorage], which would remove the
    entry, is imported by the provider and never called. *)
Theorem C1_value_offers_no_clear :
  (forall cs, exists p',
     run_calls cs Examples.watching = Ok p' /\
     is_Some (entries (localStorage (world p')) !! WATCHLIST_KEY)) /\
  (exists w,
     run_calls [CallRemove (js "550")] Examples.watching
       = Ok {| state := []; queue := []; world := w |} /\
     entries (localStorage w) !! WATCHLIST_KEY = Some (js "[]")) /\
  (exists w,
     clearWatchlistStorage (world Examples.watching) = Ok w /\
     entries (localStorage w) !! WATCHLIST_KEY = None).
Proof.
  split; [| split].
  - intros cs. apply run_calls_keep_entry. by eexists.
  - eexists. split; [vm_compute; reflexivity |]. by vm_compute.
  - eexists. split; [vm_compute; reflexivity |]. by vm_compute.
Qed.

(** C2, as the specification states it, fails: the functions of a [value]
    read the [items] of the render that made it, and a call of
    [addToWatchlist] leaves those as they are.  After the call has
    returned, [isInWatchlist] on the same [value] still answers no. *)
Lemma C2_same_value_is_stale :
  ~ (forall (p p' p'' : Provider) (v : value) mv type now,
       render p = Ok (p', v) ->
       p'' = addToWatchlist mv type now p' ->
       isInWatchlist (items v) (IMovie.id mv) = true /\
       getCount (items v) = getCount (pending p'')).
Proof.
  intros H.
  destruct (H (Examples.idle Examples.empty_storage) _ _ _
              Examples.fight_club movie 1000%Z eq_refl eq_refl) as [Hin _].
  vm_compute in Hin. discriminate Hin.
Qed.

(** C2, amended. After a call of [addToWatchlist] or [removeFromWatchlist]
    the provider renders again, and that render never fails, whatever the
    storage does with the write; the reads of the [value] of the new render
    reflect the call.  (The reads of the [value] the call was made on
    answer from the [items] of its own render.) *)
Theorem C2_next_value_reflects (p : Provider) :
  (forall mv type now, exists w,
     let v' := {| items := addToWatchlist_updater mv type now (pending p) |} in
     render (addToWatchlist mv type now p)
       = Ok ({| state := items v'; queue := []; world := w |}, v') /\
     isInWatchlist (items v') (IMovie.id mv) = true /\
     getCount (items v')
       = (if isInWatchlist (pending p) (IMovie.id mv)
          then getCount (pending p) else S (getCount (pending p))) /\
     forall filter,
       getFiltered (items v') filter
       = if isInWatchlist (pending p) (IMovie.id mv)
            || negb (passes filter (newItem mv type now))
         then getFiltered (pending p) filter
         else newItem mv type now :: getFiltered (pending p) filter) /\
  (forall id, exists w,
     let v' := {| items := removeFromWatchlist_updater id (pending p) |} in
     render (removeFromWatchlist id p)
       = Ok ({| state := items v'; queue := []; world := w |}, v') /\
     isInWatchlist (items v') id = false /\
     (isInWatchlist (pending p) id = false ->
      getCount (items v') = getCount (pending p)) /\
     (getCount (items v') <= getCount (pending p))%nat /\
     forall filter,
       getFiltered (items v') filter
       = removeFromWatchlist_updater id (getFiltered (pending p) filter)).
Proof.
  split.
  - intros mv type now.
    destruct (render_returns (addToWatchlist mv type now p)) as (w & Hr & _).
    unfold addToWatchlist in Hr. rewrite pending_setItems in Hr. cbn in Hr.
    exists w. cbn zeta. cbn [items]. split; [exact Hr |].
    destruct (isInWatchlist (pending p) (IMovie.id mv)) eqn:E.
    + rewrite add_existing by done. done.
    + rewrite add_new by done. split; [| split; [done |]].
      * cbn. unfold has_id at 1. cbn. by rewrite bool_decide_true.
      * intros filter. rewrite !getFiltered_passes. cbn.
        by destruct (passes filter _).
  - intros id.
    destruct (render_returns (removeFromWatchlist id p)) as (w & Hr & _).
    unfold removeFromWatchlist in Hr. rewrite pending_setItems in Hr.
    cbn in Hr. exists w. cbn zeta. cbn [items]. split; [exact Hr |].
    assert (Hout : isInWatchlist (removeFromWatchlist_updater id (pending p)) id
                   = false).
    { apply not_true_is_false. rewrite isInWatchlist_elem, remove_ids.
      rewrite list_elem_of_In, filter_In. intros [_ Hd].
      by rewrite bool_decide_true in Hd. }
    split; [done |].
    split; [intros E; by rewrite remove_absent |].
    split; [unfold getCount, removeFromWatchlist_updater;
            apply filter_length_le |].
    intros filter. rewrite !getFiltered_passes.
    unfold removeFromWatchlist_updater. apply List_filter_comm.
Qed.

(** The same on storages that refuse the write: the next [value] has the
    new item, and the failure is only written to the console. *)
Example render_on_blocked_storage :
  render (addToWatchlist Examples.fight_club movie 1000
            (Examples.idle Examples.blocked_storage))
  = Ok ({| state := [newItem Examples.fight_club movie 1000];
           queue := [];
           world :=
             console_error Examples.blocked_storage
               (js "Failed to save watchlist to localStorage") |},
        {| items := [newItem Examples.fight_club movie 1000] |}).
Proof. reflexivity. Qed.

Example render_on_full_storage :
  render (addToWatchlist Examples.fight_club movie 1000
            (Examples.idle Examples.full_storage))
  = Ok ({| state := [newItem Examples.fight_club movie 1000];
           queue := [];
           world :=
             console_error Examples.full_storage
               (js "Failed to save watchlist to localStorage") |},
        {| items := [newItem Examples.fight_club movie 1000] |}).
Proof. vm_compute. reflexivity. Qed.

End FacadeClaims.

(** * Further properties *)

(** ** The store: what a failed call leaves, and how the calls compose *)

Section StoreMore.

Lemma saveWatchlist_outcome (items : list Item) (w : World) :
  exists w',
    saveWatchlist items w = Ok w' /\
    ((entries (localStorage w') !! WATCHLIST_KEY
        = Some (JSON_stringify items) /\
      console w' = console w)
     \/
     (localStorage w' = localStorage w /\
      console w'
        = console w ++ [js "Failed to save watchlist to localStorage"])).
Proof.
  unfold saveWatchlist, setItem.
  destruct (blocked (localStorage w)); cbn.
  { eexists. split; [done |]. by right. }
  destruct (_ <? _); cbn.
  { eexists. split; [done |]. by right. }
  eexists. split; [done |]. left. cbn. by rewrite lookup_insert_eq.
Qed.

(** X1. [saveWatchlist] never throws and touches no other key.  Either the
    snapshot is written and the console is left alone, or the storage is
    left as it was, one line goes to the console, and [loadWatchlist]
    still returns what it returned before. *)
Theorem saveWatchlist_writes_or_logs (items : list Item) (w : World) :
  exists w',
    saveWatchlist items w = Ok w' /\
    (forall k, k <> WATCHLIST_KEY ->
       entries (localStorage w') !! k = entries (localStorage w) !! k) /\
    ((entries (localStorage w') !! WATCHLIST_KEY
        = Some (JSON_stringify items) /\
      console w' = console w)
     \/
     (localStorage w' = localStorage w /\
      console w'
        = console w ++ [js "Failed to save watchlist to localStorage"] /\
      loadWatchlist w' = loadWatchlist w)).
Proof.
  unfold saveWatchlist, setItem.
  destruct (blocked (localStorage w)) eqn:Hb; cbn.
  { eexists. split; [done |]. split; [done |]. right. by repeat split. }
  destruct (_ <? _); cbn.
  { eexists. split; [done |]. split; [done |]. right. by repeat split. }
  eexists. split; [done |]. cbn. split.
  - intros k Hk. by rewrite lookup_insert_ne.
  - left. by rewrite lookup_insert_eq.
Qed.

(** X2. [clearWatchlistStorage] never throws and touches no other key.  On
    a storage that can be reached the entry is gone afterwards; where
    there was none the storage is left as it was and nothing is logged.
    On a blocked storage one line goes to the console.  In both cases
    [loadWatchlist] returns the empty array afterwards. *)
Theorem clearWatchlistStorage_clears_or_logs (w : World) :
  exists w',
    clearWatchlistStorage w = Ok w' /\
    (forall k, k <> WATCHLIST_KEY ->
       entries (localStorage w') !! k = entries (localStorage w) !! k) /\
    (blocked (localStorage w) = false ->
       entries (localStorage w') !! WATCHLIST_KEY = None /\
       console w' = console w /\
       (entries (localStorage w) !! WATCHLIST_KEY = None ->
        localStorage w' = localStorage w)) /\
    (blocked (localStorage w) = true ->
       localStorage w' = localStorage w /\
       console w'
         = console w ++ [js "Failed to clear watchlist from localStorage"]) /\
    loadWatchlist w' = Ok (JArray []).
Proof.
  unfold clearWatchlistStorage, removeItem.
  destruct w as [[m b q] c]. cbn. destruct b; cbn.
  - eexists. split; [done |]. by repeat split.
  - eexists. split; [done |]. cbn. split.
    { intros k Hk. by rewrite lookup_delete_ne. }
    split; [| split; [done |]].
    + intros _. split; [apply lookup_delete_eq |]. split; [done |].
      intros Hnone. by rewrite delete_id.
    + unfold loadWatchlist, getItem. cbn. by rewrite lookup_delete_eq.
Qed.

(** X3. Two collections with the same snapshot are the same collection:
    [JSON.stringify] loses nothing of an array of items. *)
Theorem JSON_stringify_inj (c1 c2 : list Item) :
  JSON_stringify c1 = JSON_stringify c2 -> c1 = c2.
Proof.
  intros H.
  assert (H1 : Some (items_json c1) = Some (items_json c2)).
  { by rewrite <- !JSON_parse_stringify, H. }
  assert (H2 : as_items (items_json c1) = as_items (items_json c2))
    by congruence.
  rewrite !as_items_json in H2. congruence.
Qed.

Lemma JSON_stringify_inj_witness :
  JSON_stringify Examples.two_items = JSON_stringify Examples.two_items /\
  Examples.two_items = Examples.two_items.
Proof.
  split; [reflexivity |].
  apply (JSON_stringify_inj Examples.two_items Examples.two_items).
  reflexivity.
Defined.

End StoreMore.

(** ** The updaters: what a removal removes, and how the two compose *)

Section UpdatersMore.
Import WatchlistProvider.

Lemma isInWatchlist_remove id c :
  isInWatchlist (removeFromWatchlist_updater id c) id = false.
Proof.
  apply not_true_is_false. rewrite isInWatchlist_elem, remove_ids.
  rewrite list_elem_of_In, filter_In. intros [_ Hd].
  by rewrite bool_decide_true in Hd.
Qed.

Lemma isInWatchlist_remove_other id id' c :
  id' <> id ->
  isInWatchlist (removeFromWatchlist_updater id c) id' = isInWatchlist c id'.
Proof.
  intros Hne. unfold isInWatchlist, removeFromWatchlist_updater.
  induction c as [|x c IH]; [done |]. cbn.
  destruct (has_id id x) eqn:Hx; cbn; rewrite IH; [| done].
  unfold has_id in *. apply bool_decide_eq_true in Hx.
  rewrite bool_decide_false by congruence. done.
Qed.

(** X4. [removeFromWatchlist] removes the items with the id and nothing
    else: the id is absent afterwards, the membership of every other id is
    as before, the items left are in the order they had, a second removal
    changes nothing, the removal of an absent id changes nothing, and two
    removals give the same collection in either order. *)
Theorem remove_removes_exactly (id : jsstring) (c : list Item) :
  isInWatchlist (removeFromWatchlist_updater id c) id = false /\
  (forall id', id' <> id ->
     isInWatchlist (removeFromWatchlist_updater id c) id'
     = isInWatchlist c id') /\
  (forall item, item ∈ c -> WatchlistItem.id item <> id ->
     item ∈ removeFromWatchlist_updater id c) /\
  sublist (removeFromWatchlist_updater id c) c /\
  removeFromWatchlist_updater id (removeFromWatchlist_updater id c)
    = removeFromWatchlist_updater id c /\
  (isInWatchlist c id = false -> removeFromWatchlist_updater id c = c) /\
  (forall id',
     removeFromWatchlist_updater id (removeFromWatchlist_updater id' c)
     = removeFromWatchlist_updater id' (removeFromWatchlist_updater id c)).
Proof.
  split; [apply isInWatchlist_remove |].
  split; [intros; by apply isInWatchlist_remove_other |].
  split; [| split; [| split; [| split]]].
  - intros item Hin Hne. unfold removeFromWatchlist_updater.
    rewrite list_elem_of_In, filter_In, <- list_elem_of_In.
    split; [done |]. unfold has_id. by rewrite bool_decide_false.
  - unfold removeFromWatchlist_updater.
    induction c as [|x c IH]; cbn; [constructor |].
    destruct (negb _); by constructor.
  - apply remove_absent, isInWatchlist_remove.
  - apply remove_absent.
  - intros id'. unfold removeFromWatchlist_updater. apply List_filter_comm.
Qed.

(** X5. With distinct ids, the removal of an id that is there takes
    exactly one item away. *)
Theorem remove_takes_one (id : jsstring) (c : list Item) :
  NoDup (ids c) ->
  isInWatchlist c id = true ->
  S (getCount (removeFromWatchlist_updater id c)) = getCount c.
Proof.
  unfold getCount. induction c as [|x c IH]; [done |].
  cbn [ids fmap list_fmap]. intros [Hx Hnd]%NoDup_cons Hin.
  unfold removeFromWatchlist_updater. cbn [List.filter].
  destruct (has_id id x) eqn:E; cbn [negb length].
  - unfold has_id in E. apply bool_decide_eq_true in E. subst id.
    fold (removeFromWatchlist_updater (WatchlistItem.id x) c).
    rewrite remove_absent; [done |].
    apply not_true_is_false. by rewrite isInWatchlist_elem.
  - f_equal. apply IH; [done |].
    unfold isInWatchlist in *. cbn in Hin. by rewrite E in Hin.
Qed.

Lemma remove_takes_one_witness :
  S (getCount (removeFromWatchlist_updater (js "550") Examples.two_items))
  = getCount Examples.two_items.
Proof.
  apply remove_takes_one; [| reflexivity].
  apply (bool_decide_unpack (NoDup _)). vm_compute. exact I.
Defined.

(** X6. A removal undoes the add of a new candidate: the collection is
    again what it was.  The other way round it is not so: after a removal
    the add puts the candidate first, with the time of this add. *)
Theorem remove_undoes_add (mv : IMovie.t) (type : MediaType) (now : Z)
    (prev : list Item) :
  (isInWatchlist prev (IMovie.id mv) = false ->
   removeFromWatchlist_updater (IMovie.id mv)
     (addToWatchlist_updater mv type now prev)
   = prev) /\
  addToWatchlist_updater mv type now
    (removeFromWatchlist_updater (IMovie.id mv) prev)
  = newItem mv type now :: removeFromWatchlist_updater (IMovie.id mv) prev.
Proof.
  split.
  - intros H. rewrite add_new by done.
    unfold removeFromWatchlist_updater. cbn [List.filter].
    unfold has_id at 1. cbn. rewrite bool_decide_true by done.
    cbn. by apply remove_absent.
  - apply add_new, isInWatchlist_remove.
Qed.

Lemma remove_undoes_add_witness :
  removeFromWatchlist_updater (IMovie.id Examples.breaking_bad)
    (addToWatchlist_updater Examples.breaking_bad tv 7
       [Examples.item "550" movie "Fight Club" 1])
  = [Examples.item "550" movie "Fight Club" 1].
Proof.
  apply (remove_undoes_add Examples.breaking_bad tv 7). reflexivity.
Defined.

(** X7. [getFiltered('movie')] and [getFiltered('tv')] split the
    collection: every item is in exactly one of them, each keeps the order
    and the distinct ids of the collection, and their counts add up to
    [getCount()]. *)
Theorem getFiltered_splits (c : list Item) :
  Permutation (getFiltered c (only movie) ++ getFiltered c (only tv)) c /\
  (getCount (getFiltered c (only movie)) + getCount (getFiltered c (only tv))
   = getCount c)%nat /\
  (forall item,
     item ∈ getFiltered c (only movie) -> item ∈ getFiltered c (only tv) ->
     False) /\
  (forall t,
     sublist (getFiltered c (only t)) c /\
     Forall (fun item => WatchlistItem.type item = t)
       (getFiltered c (only t)) /\
     (NoDup (ids c) -> NoDup (ids (getFiltered c (only t))))).
Proof.
  assert (Hperm : Permutation
            (getFiltered c (only movie) ++ getFiltered c (only tv)) c).
  { cbn. induction c as [|x c IH]; [done |]. cbn [List.filter].
    destruct (WatchlistItem.type x) eqn:E.
    - replace (has_type movie x) with true by (unfold has_type; by rewrite E).
      replace (has_type tv x) with false by (unfold has_type; by rewrite E).
      by apply perm_skip.
    - replace (has_type movie x) with false by (unfold has_type; by rewrite E).
      replace (has_type tv x) with true by (unfold has_type; by rewrite E).
      rewrite <- Permutation_middle. by apply perm_skip. }
  split; [done |]. split.
  { unfold getCount. rewrite <- length_app. by apply Permutation_length. }
  clear Hperm. split.
  { cbn. intros item.
    rewrite !list_elem_of_In, !filter_In. unfold has_type.
    intros [_ H1%bool_decide_eq_true] [_ H2%bool_decide_eq_true]. congruence. }
  intros t. cbn [getFiltered]. split; [| split].
  - induction c as [|x c IH]; cbn [List.filter]; [constructor |].
    destruct (has_type t x); [by apply sublist_skip | by apply sublist_cons].
  - apply Forall_forall. intros item.
    rewrite list_elem_of_In, filter_In. unfold has_type.
    by intros [_ H%bool_decide_eq_true].
  - unfold ids. induction c as [|x c IH]; [done |].
    cbn [List.filter fmap list_fmap].
    intros [Hx Hnd]%NoDup_cons.
    destruct (has_type t x); cbn [fmap list_fmap]; [| auto].
    constructor; [| auto].
    intros Hin. apply Hx. apply list_elem_of_fmap in Hin as (y & -> & Hy).
    apply list_elem_of_fmap. exists y. split; [done |].
    apply list_elem_of_In, filter_In in Hy as [Hy _].
    by apply list_elem_of_In.
Qed.

End UpdatersMore.

(** ** [getSorted]: sorted input, the two date orders, the clock *)

Section SortedMore.
Import WatchlistProvider.

Lemma Sorted_weaken {A} (R1 R2 : A -> A -> Prop) l :
  (forall a b, R1 a b -> R2 a b) -> Sorted R1 l -> Sorted R2 l.
Proof.
  intros HR. induction 1 as [|x l Hl IH Hx]; constructor; [done |].
  destruct Hx; constructor; auto.
Qed.

(** A list in order comes out of the sort as it is. *)
Lemma sort_sorted_id {A} (compareFn : A -> A -> Z) (l : list A) :
  Sorted (fun a b => (compareFn a b <= 0)%Z) l -> Host.sort compareFn l = l.
Proof.
  induction 1 as [|x l Hl IH Hx]; [done |].
  cbn [Host.sort foldr]. fold (Host.sort compareFn l). rewrite IH.
  destruct Hx as [|y l' Hxy]; [done |]. cbn.
  destruct (Z.ltb_spec 0 (compareFn x y)); [lia | done].
Qed.

(** X8. Sorting again changes nothing: [getSorted] of what [getSorted]
    returned, in the same order, is that same sequence; for the order by
    title this holds when [localeCompare] never puts two strings each
    after the other.  The count is that of the input. *)
Theorem getSorted_idempotent (localeCompare : jsstring -> jsstring -> Z)
    (l : list Item) (sortBy : SortBy) :
  (sortBy = by_title ->
   forall a b, (0 < localeCompare a b)%Z -> (localeCompare b a <= 0)%Z) ->
  getSorted localeCompare (getSorted localeCompare l sortBy) sortBy
  = getSorted localeCompare l sortBy /\
  getCount (getSorted localeCompare l sortBy) = getCount l.
Proof.
  intros Hanti. split.
  - destruct sortBy; unfold getSorted; apply sort_sorted_id, sort_Sorted.
    + intros; lia.
    + intros; lia.
    + intros a b. by apply Hanti.
  - unfold getCount. apply Permutation_length.
    destruct sortBy; apply sort_Permutation.
Qed.

Lemma getSorted_idempotent_witness :
  getSorted Host.localeCompare
    (getSorted Host.localeCompare Examples.two_items by_title) by_title
  = getSorted Host.localeCompare Examples.two_items by_title.
Proof.
  apply (getSorted_idempotent Host.localeCompare Examples.two_items by_title).
  intros _ a b. rewrite (localeCompare_antisym a b). lia.
Defined.

Lemma StronglySorted_List_filter {A} (R : A -> A -> Prop) (f : A -> bool) l :
  StronglySorted R l -> StronglySorted R (List.filter f l).
Proof.
  induction 1 as [|x l Hl IH Hx]; cbn; [constructor |].
  destruct (f x); [| done]. constructor; [done |].
  rewrite Forall_forall in *. intros y Hy. apply Hx.
  apply list_elem_of_In, filter_In in Hy as [Hy _]. by apply list_elem_of_In.
Qed.

Lemma built_newest_first t c :
  Session.built t c ->
  StronglySorted
    (fun a b => (WatchlistItem.addedAt b <= WatchlistItem.addedAt a)%Z) c /\
  Forall (fun i => (WatchlistItem.addedAt i <= t)%Z) c.
Proof.
  induction 1 as [t | t c mv type now _ [IHs IHf] Hle | t c id _ [IHs IHf]].
  - split; constructor.
  - assert (Hnow : Forall (fun i => (WatchlistItem.addedAt i <= now)%Z) c).
    { eapply Forall_impl; [exact IHf |]. cbn. intros; lia. }
    unfold addToWatchlist_updater. destruct (existsb _ _); [done |].
    split; constructor; cbn; try done.
  - split.
    + by apply StronglySorted_List_filter.
    + unfold removeFromWatchlist_updater. rewrite Forall_forall in *.
      intros i Hi. apply IHf.
      apply list_elem_of_In, filter_In in Hi as [Hi _].
      by apply list_elem_of_In.
Qed.

(** X9. With a clock that never goes back, a collection built by adds and
    removes is newest first as it stands: [getSorted(items, 'date-new')]
    returns the items in the order they have, and no item is later than
    the last time read. *)
Theorem built_is_newest_first (localeCompare : jsstring -> jsstring -> Z)
    (t : Z) (c : list Item) :
  Session.built t c ->
  getSorted localeCompare c date_new = c /\
  Forall (fun i => (WatchlistItem.addedAt i <= t)%Z) c.
Proof.
  intros [Hs Hf]%built_newest_first. split; [| done].
  unfold getSorted. apply sort_sorted_id.
  apply Sorted_weaken
    with (R1 := fun a b =>
                  (WatchlistItem.addedAt b <= WatchlistItem.addedAt a)%Z);
    [intros; lia |].
  by apply StronglySorted_Sorted.
Qed.

Lemma built_is_newest_first_witness :
  getSorted Host.localeCompare
    (addToWatchlist_updater Examples.breaking_bad tv 20
       (addToWatchlist_updater Examples.fight_club movie 10 [])) date_new
  = addToWatchlist_updater Examples.breaking_bad tv 20
      (addToWatchlist_updater Examples.fight_club movie 10 []).
Proof.
  apply (built_is_newest_first Host.localeCompare 20).
  apply (Session.built_add 10); [| lia].
  apply (Session.built_add 10); [| lia].
  apply Session.built_empty.
Defined.

Lemma NoDup_fmap_eq {A B} (f : A -> B) (l : list A) x y :
  NoDup (f <$> l) -> x ∈ l -> y ∈ l -> f x = f y -> x = y.
Proof.
  induction l as [|z l IH]; cbn; [by intros _ ?%elem_of_nil |].
  intros [Hz Hnd]%NoDup_cons [-> | Hx]%elem_of_cons [-> | Hy]%elem_of_cons E;
    try done.
  - exfalso. apply Hz. rewrite E. by apply list_elem_of_fmap_2.
  - exfalso. apply Hz. rewrite <- E. by apply list_elem_of_fmap_2.
  - by apply IH.
Qed.

(** X10. Where no two items have the same [addedAt], the order of
    [getSorted] by date does not depend on the order of the input, and
    [date-old] gives the reverse of [date-new]. *)
Theorem date_orders_mirror (localeCompare : jsstring -> jsstring -> Z)
    (l : list Item) :
  NoDup (WatchlistItem.addedAt <$> l) ->
  getSorted localeCompare l date_old
    = reverse (getSorted localeCompare l date_new) /\
  forall l' sortBy,
    Permutation l l' -> sortBy <> by_title ->
    getSorted localeCompare l' sortBy = getSorted localeCompare l sortBy.
Proof.
  intros Hnd.
  set (up := fun a b : Item =>
               (WatchlistItem.addedAt a <= WatchlistItem.addedAt b)%Z).
  set (down := fun a b : Item =>
                 (WatchlistItem.addedAt b <= WatchlistItem.addedAt a)%Z).
  assert (Hup : forall l0,
            StronglySorted up (getSorted localeCompare l0 date_old)).
  { intros l0. apply (sort_StronglySorted_by_key _ WatchlistItem.addedAt).
    intros; lia. }
  assert (Hdown : forall l0,
            StronglySorted down (getSorted localeCompare l0 date_new)).
  { intros l0.
    apply StronglySorted_weaken
      with (R1 := fun a b => (- WatchlistItem.addedAt a
                              <= - WatchlistItem.addedAt b)%Z);
      [unfold down; intros; lia |].
    apply (sort_StronglySorted_by_key _
             (fun i => (- WatchlistItem.addedAt i)%Z)).
    intros; lia. }
  assert (Hperm : forall l0 sortBy,
            Permutation (getSorted localeCompare l0 sortBy) l0).
  { intros l0 []; apply sort_Permutation. }
  assert (Heq : forall x y, x ∈ l -> y ∈ l ->
            WatchlistItem.addedAt x = WatchlistItem.addedAt y -> x = y).
  { intros x y. by apply NoDup_fmap_eq. }
  split.
  - apply (sorting.StronglySorted_unique_strong up); [| apply Hup | |].
    + intros x y Hx Hy H1 H2. apply Heq; [| | unfold up in *; lia].
      * by rewrite <- (Hperm l date_old).
      * rewrite reverse_Permutation in Hy. by rewrite <- (Hperm l date_new).
    + apply Sorted_StronglySorted; [unfold up; intros a b c ? ?; lia |].
      apply (Sorted_weaken (flip down)); [done |].
      apply sorting.Sorted_reverse, StronglySorted_Sorted, Hdown.
    + by rewrite reverse_Permutation, !Hperm.
  - intros l' sortBy Hl Hs. destruct sortBy; [| | done].
    + apply (sorting.StronglySorted_unique_strong down);
        [| apply Hdown | apply Hdown | by rewrite !Hperm].
      intros x y Hx Hy H1 H2. apply Heq; [| | unfold down in *; lia].
      * by rewrite Hl, <- (Hperm l' date_new).
      * by rewrite <- (Hperm l date_new).
    + apply (sorting.StronglySorted_unique_strong up);
        [| apply Hup | apply Hup | by rewrite !Hperm].
      intros x y Hx Hy H1 H2. apply Heq; [| | unfold up in *; lia].
      * by rewrite Hl, <- (Hperm l' date_old).
      * by rewrite <- (Hperm l date_old).
Qed.

Lemma date_orders_mirror_witness :
  getSorted Host.localeCompare Examples.two_items date_old
  = reverse (getSorted Host.localeCompare Examples.two_items date_new).
Proof.
  apply (proj1 (date_orders_mirror Host.localeCompare Examples.two_items
                  ltac:(apply (bool_decide_unpack (NoDup _));
                        vm_compute; exact I))).
Defined.

End SortedMore.

(** ** Arrays as objects: what is copied and what is shared *)

Section ArraysMore.
Import Arrays.

(** X11. [getSorted] returns a new array and changes no array that was
    there: its argument, and the [items] of the provider when that is the
    argument, are as they were; the new array holds the sorted items. *)
Theorem getSorted_copies (localeCompare : list N -> list N -> Z)
    (itemsToSort : loc) (sortBy : SortBy) (h : heap) :
  let r := (ArrayOps.getSorted localeCompare itemsToSort sortBy h).1 in
  let h' := (ArrayOps.getSorted localeCompare itemsToSort sortBy h).2 in
  h !! r = None /\
  read h' r
    = WatchlistProvider.getSorted localeCompare (read h itemsToSort) sortBy /\
  (forall l, is_Some (h !! l) -> h' !! l = h !! l) /\
  (forall l, is_Some (h !! l) -> r <> l).
Proof.
  unfold ArrayOps.getSorted.
  set (elements := read h itemsToSort).
  pose proof (alloc_fresh elements h) as Hfresh.
  pose proof (read_alloc elements h) as Hread.
  destruct (alloc elements h) as [sorted h1] eqn:E. cbn in *.
  assert (Hne : forall l, is_Some (h !! l) -> sorted <> l).
  { intros l Hl ->. rewrite Hfresh in Hl. by destruct Hl. }
  split; [done |]. split; [by rewrite read_mutate, Hread |].
  split; [| done].
  intros l Hl. unfold mutate. rewrite lookup_insert_ne by auto.
  pose proof (read_alloc_other elements h l Hl) as Hother.
  by rewrite E in Hother.
Qed.

(** X12. The updaters change no array that was there.  The one of
    [addToWatchlist] returns the array it was given, the very same, when
    the id is there, and a new array in the other case, which is the case
    where the content changes; the one of [removeFromWatchlist] always
    returns a new array.  In each case the array returned holds what the
    updater on the content gives. *)
Theorem updaters_do_not_mutate (prev : loc) (h : heap) :
  is_Some (h !! prev) ->
  (forall mv type now,
     let r := (ArrayOps.addToWatchlist_updater mv type now prev h).1 in
     let h' := (ArrayOps.addToWatchlist_updater mv type now prev h).2 in
     read h' r
       = WatchlistProvider.addToWatchlist_updater mv type now (read h prev) /\
     (forall l, is_Some (h !! l) -> h' !! l = h !! l) /\
     (r = prev <->
      Lifecycle.returns_prev (Lifecycle.Added mv type now) (read h prev)
      = true)) /\
  (forall id,
     let r := (ArrayOps.removeFromWatchlist_updater id prev h).1 in
     let h' := (ArrayOps.removeFromWatchlist_updater id prev h).2 in
     read h' r
       = WatchlistProvider.removeFromWatchlist_updater id (read h prev) /\
     (forall l, is_Some (h !! l) -> h' !! l = h !! l) /\
     r <> prev /\
     Lifecycle.returns_prev (Lifecycle.Removed id) (read h prev) = false).
Proof.
  intros Hprev. split.
  - intros mv type now.
    unfold ArrayOps.addToWatchlist_updater,
      WatchlistProvider.addToWatchlist_updater. cbn [Lifecycle.returns_prev].
    destruct (existsb _ (read h prev)) eqn:E; cbn zeta.
    + cbn. by repeat split.
    + set (elements := _ :: _).
      split; [apply read_alloc |].
      split; [intros l Hl; by apply read_alloc_other |].
      split; [| done]. intros Heq.
      pose proof (alloc_fresh elements h) as Hf.
      rewrite Heq in Hf. rewrite Hf in Hprev. by destruct Hprev.
  - intros id. unfold ArrayOps.removeFromWatchlist_updater. cbn zeta.
    set (elements := List.filter _ _).
    split; [apply read_alloc |].
    split; [intros l Hl; by apply read_alloc_other |].
    split; [| done]. intros Heq.
    pose proof (alloc_fresh elements h) as Hf.
    rewrite Heq in Hf. rewrite Hf in Hprev. by destruct Hprev.
Qed.

Lemma updaters_do_not_mutate_witness :
  let h : heap := {[ 0%nat := [Examples.item "550" movie "Fight Club" 1] ]} in
  read (ArrayOps.removeFromWatchlist_updater (js "550") 0%nat h).2
       (ArrayOps.removeFromWatchlist_updater (js "550") 0%nat h).1
  = WatchlistProvider.removeFromWatchlist_updater (js "550") (read h 0%nat).
Proof.
  intros h.
  apply (proj2 (updaters_do_not_mutate 0%nat h ltac:(by eexists))).
Defined.

End ArraysMore.

(** ** The provider over a session: hydration, persistence, batching *)

Section LifecycleMore.
Import Lifecycle.

Lemma process_unchanged q : forall s b s',
  process q s b = (s', false) -> s' = s /\ b = false.
Proof.
  induction q as [|u q IH]; intros s b s' H; cbn in H.
  - by injection H as -> ->.
  - apply IH in H as [-> [Hb Hu]%orb_false_elim].
    split; [| done]. apply negb_false_iff in Hu.
    destruct u as [saved | mv type now | id]; cbn in *; try done.
    unfold WatchlistProvider.addToWatchlist_updater. by rewrite Hu.
Qed.

Lemma pending_rendered s w :
  pending {| state := s; queue := []; world := w |} = s.
Proof. reflexivity. Qed.

Lemma pending_run_call c p :
  pending (run_call c p) = apply_update (Session.update_of c) (pending p).
Proof. destruct c; apply pending_setItems. Qed.

(** What a render leaves in the world: the snapshot of the new items, or
    one more line on the console, or the world as it was when the state
    has not changed. *)
Lemma render_world p :
  exists w,
    render p = Ok ({| state := pending p; queue := []; world := w |},
                   {| items := pending p |}) /\
    ((entries (localStorage w) !! WATCHLIST_KEY
        = Some (JSON_stringify (pending p)) /\
      console w = console (world p))
     \/ (exists line, console w = console (world p) ++ [line])
     \/ (w = world p /\ pending p = state p)).
Proof.
  unfold render, pending.
  destruct (process (queue p) (state p) false) as [its changed] eqn:E. cbn.
  destruct changed.
  - destruct (saveWatchlist_outcome its (world p))
      as (w & -> & [[He Hc] | (_ & Hc)]); exists w;
      (split; [done |]); [by left | right; left; by eexists].
  - exists (world p). split; [done |]. right; right.
    by apply process_unchanged in E as [-> _].
Qed.

Lemma run_calls_console cs : forall p p',
  run_calls cs p = Ok p' ->
  exists extra, console (world p') = console (world p) ++ extra.
Proof.
  induction cs as [|c cs IH]; intros p p' H; cbn in H.
  - injection H as <-. exists []. by rewrite app_nil_r.
  - destruct (render_world (run_call c p)) as (w & Hr & Hw).
    rewrite Hr in H. cbn in H. apply IH in H as [e2 He2]. cbn in He2.
    assert (Hp : world (run_call c p) = world p) by (by destruct c).
    rewrite Hp in Hw.
    destruct Hw as [[_ Hc] | [[line Hc] | [-> _]]].
    + exists e2. by rewrite He2, Hc.
    + exists (line :: e2). by rewrite He2, Hc, <- app_assoc.
    + by exists e2.
Qed.

(** X13. A reload restores the watchlist: when the storage holds the
    snapshot of a collection, the first render of the provider has no
    item, and the render after it has the items of that collection, in
    their order. *)
Theorem reload_restores (c : list Item) (w : World) :
  blocked (localStorage w) = false ->
  entries (localStorage w) !! WATCHLIST_KEY = Some (JSON_stringify c) ->
  exists p p' w',
    mount w = Ok (Some (p, {| items := [] |})) /\
    render p = Ok (p', {| items := c |}) /\
    p' = {| state := c; queue := []; world := w' |}.
Proof.
  intros Hb He. destruct (mount_hydrates c w Hb He) as (p & Hm & Hp).
  destruct (render_returns p) as (w' & Hr & _). rewrite Hp in Hr.
  eexists p, _, w'. by repeat split.
Qed.

Lemma reload_restores_witness :
  exists p p' w',
    mount (world Examples.watching) = Ok (Some (p, {| items := [] |})) /\
    render p
      = Ok (p', {| items := [Examples.item "550" movie "Fight Club" 1] |}) /\
    p' = {| state := [Examples.item "550" movie "Fight Club" 1];
            queue := []; world := w' |}.
Proof.
  apply (reload_restores [Examples.item "550" movie "Fight Club" 1]
           (world Examples.watching)); reflexivity.
Defined.

(** X14. An entry that is not JSON does not survive the mount: the
    provider starts with no item, and unless the write fails, which is
    logged, the entry is the snapshot of the empty collection before any
    call is made. *)
Theorem mount_replaces_corrupted (w : World) (text : jsstring) :
  blocked (localStorage w) = false ->
  entries (localStorage w) !! WATCHLIST_KEY = Some text ->
  JSON_parse text = None ->
  exists p,
    mount w = Ok (Some (p, {| items := [] |})) /\
    pending p = [] /\
    (console (world p) = console w ->
     entries (localStorage (world p)) !! WATCHLIST_KEY = Some (js "[]")).
Proof.
  intros Hb He Hparse. unfold mount.
  assert (Hload : loadWatchlist w = Ok (JArray [])).
  { unfold loadWatchlist, getItem, parse. rewrite Hb, He. cbn.
    rewrite Hparse. by destruct (falsy text). }
  rewrite Hload. cbn [bind].
  destruct (saveWatchlist_outcome [] w)
    as (w' & -> & [[Hentry Hc] | (_ & Hc)]); cbn;
    eexists; (split; [done |]); (split; [done |]); cbn.
  - done.
  - rewrite Hc. intros Heq. apply (f_equal length) in Heq.
    rewrite length_app in Heq. cbn in Heq. lia.
Qed.

Lemma mount_replaces_corrupted_witness :
  exists p,
    mount Examples.corrupted_storage = Ok (Some (p, {| items := [] |})) /\
    pending p = [] /\
    (console (world p) = console Examples.corrupted_storage ->
     entries (localStorage (world p)) !! WATCHLIST_KEY = Some (js "[]")).
Proof.
  apply (mount_replaces_corrupted Examples.corrupted_storage
           (js "invalid json")); reflexivity.
Defined.

(** X15. Without a logged failure the storage follows the items: when the
    storage holds the snapshot of the items and calls are made, each
    followed by its render, and no line has been added to the console,
    the storage holds the snapshot of the items of the last render, and a
    reload then starts from those items. *)
Theorem no_logged_failure_in_sync (cs : list call) (p p' : Provider) :
  Session.in_sync p ->
  run_calls cs p = Ok p' ->
  console (world p') = console (world p) ->
  Session.in_sync p' /\
  (blocked (localStorage (world p')) = false ->
   exists q, mount (world p') = Ok (Some (q, {| items := [] |})) /\
             pending q = state p').
Proof.
  intros Hsync Hrun Hconsole.
  assert (Hs : Session.in_sync p').
  { revert p Hsync Hrun Hconsole.
    induction cs as [|c cs IH]; intros p Hsync Hrun Hconsole; cbn in Hrun.
    { by injection Hrun as <-. }
    destruct (render_world (run_call c p)) as (w & Hr & Hw).
    rewrite Hr in Hrun. cbn in Hrun.
    assert (Hp : world (run_call c p) = world p) by (by destruct c).
    rewrite Hp in Hw.
    destruct (run_calls_console _ _ _ Hrun) as [e2 He2]. cbn in He2.
    assert (Hc1 : console w = console (world p) /\ e2 = []).
    { destruct Hw as [[_ Hc] | [[line Hc] | [-> _]]].
      - rewrite He2, Hc in Hconsole.
        apply (f_equal length) in Hconsole. rewrite length_app in Hconsole.
        split; [done |]. apply length_zero_iff_nil. lia.
      - rewrite He2, Hc in Hconsole. apply (f_equal length) in Hconsole.
        rewrite !length_app in Hconsole. cbn in Hconsole. lia.
      - rewrite He2 in Hconsole.
        apply (f_equal length) in Hconsole. rewrite length_app in Hconsole.
        split; [done |]. apply length_zero_iff_nil. lia. }
    destruct Hc1 as [Hc1 ->]. rewrite app_nil_r in He2.
    apply (IH _) in Hrun; [done | | by rewrite He2].
    split; [done |]. cbn.
    destruct Hw as [[He _] | [[line Hc] | [-> Hst]]].
    - done.
    - rewrite Hc in Hc1. apply (f_equal length) in Hc1.
      rewrite length_app in Hc1. cbn in Hc1. lia.
    - destruct Hsync as [_ Hentry]. rewrite Hst.
      by replace (state (run_call c p)) with (state p) by (by destruct c). }
  split; [done |]. intros Hb. destruct Hs as [_ Hentry].
  by apply mount_hydrates.
Qed.

Lemma no_logged_failure_in_sync_witness :
  Session.in_sync Examples.watching /\
  exists p',
    run_calls [CallAdd Examples.breaking_bad tv 2; CallRemove (js "550")]
      Examples.watching = Ok p' /\
    Session.in_sync p'.
Proof.
  assert (Hsync : Session.in_sync Examples.watching) by (split; reflexivity).
  split; [exact Hsync |]. eexists. split; [vm_compute; reflexivity |].
  eapply (no_logged_failure_in_sync
            [CallAdd Examples.breaking_bad tv 2; CallRemove (js "550")]
            Examples.watching); [exact Hsync | vm_compute; reflexivity |].
  reflexivity.
Defined.

(** X16. One render after several calls gives the items that a render
    after each call gives: the updaters run in the order of the calls, on
    the items of the provider. *)
Theorem calls_batch (cs : list call) (p : Provider) :
  exists p',
    run_calls cs p = Ok p' /\
    pending p'
      = foldl (fun s c => apply_update (Session.update_of c) s)
          (pending p) cs /\
    pending (foldl (fun p c => run_call c p) p cs) = pending p'.
Proof.
  revert p. induction cs as [|c cs IH]; intros p; cbn.
  - by eexists.
  - destruct (render_returns (run_call c p)) as (w & -> & _). cbn.
    destruct (IH {| state := pending (run_call c p); queue := [];
                    world := w |}) as (p' & Hrun & Hp & _).
    exists p'. split; [done |].
    rewrite pending_rendered, pending_run_call in Hp. split; [done |].
    destruct (IH (run_call c p)) as (p2 & _ & Hp2 & Hb).
    by rewrite Hb, Hp2, Hp, pending_run_call.
Qed.

End LifecycleMore.

(** ** The page [Watchlist] *)

Section PageMore.
Import Lifecycle WatchlistProvider.

Lemma filteredItems_getFiltered items filterBy :
  Watchlist.filteredItems items filterBy = getFiltered items filterBy.
Proof. symmetry. apply getFiltered_passes. Qed.

(** X17. The page filters and sorts by itself, and agrees with the
    provider: for Recently Added, Oldest Added and Title (A-Z) its cards
    are [getSorted(getFiltered(filter), ...)] for [date-new], [date-old]
    and [title].  In every order the cards are the items of the filter,
    each once; for Title (Z-A) they are in the order of [localeCompare]
    turned round, and items with labels [localeCompare] finds equal keep
    the order they have in the collection. *)
Theorem page_agrees_with_provider (localeCompare : jsstring -> jsstring -> Z)
    (items : list Item) (filterBy : Filter) :
  Watchlist.sortedItems localeCompare items Watchlist.dateAddedDesc filterBy
    = getSorted localeCompare (getFiltered items filterBy) date_new /\
  Watchlist.sortedItems localeCompare items Watchlist.dateAdded filterBy
    = getSorted localeCompare (getFiltered items filterBy) date_old /\
  Watchlist.sortedItems localeCompare items Watchlist.titleAsc filterBy
    = getSorted localeCompare (getFiltered items filterBy) by_title /\
  (forall sortBy,
     Permutation (Watchlist.sortedItems localeCompare items sortBy filterBy)
       (getFiltered items filterBy)) /\
  (let out :=
     Watchlist.sortedItems localeCompare items Watchlist.titleDesc filterBy in
   let ge a b :=
     (localeCompare (WatchlistItem.title b) (WatchlistItem.title a) <= 0)%Z in
   ((forall a b, (0 < localeCompare a b)%Z -> (localeCompare b a <= 0)%Z) ->
    Sorted ge out) /\
   forall tie : Item -> bool,
     (forall a b, tie a = true -> tie b = true -> ge a b) ->
     List.filter tie out = List.filter tie (getFiltered items filterBy)).
Proof.
  unfold Watchlist.sortedItems. rewrite filteredItems_getFiltered.
  split; [done |]. split; [done |]. split; [done |]. split.
  - intros sortBy. apply sort_Permutation.
  - cbn zeta. split.
    + intros Hanti.
      apply (sort_Sorted
               (Watchlist.compare localeCompare Watchlist.titleDesc)).
      intros a b. apply Hanti.
    + intros tie Htie. by apply sort_stable.
Qed.

Lemma page_agrees_with_provider_witness :
  Sorted
    (fun a b =>
       (Host.localeCompare (WatchlistItem.title b) (WatchlistItem.title a)
        <= 0)%Z)
    (Watchlist.sortedItems Host.localeCompare Examples.two_items
       Watchlist.titleDesc all).
Proof.
  apply (page_agrees_with_provider Host.localeCompare Examples.two_items all).
  intros a b. rewrite (localeCompare_antisym a b). lia.
Defined.

Lemma List_filter_filter {A} (f g : A -> bool) (l : list A) :
  List.filter f (List.filter g l) = List.filter (fun x => g x && f x) l.
Proof.
  induction l as [|x l IH]; [done |]. cbn.
  destruct (g x); cbn; [destruct (f x) |]; by rewrite IH.
Qed.

Lemma remove_each (l s : list Item) :
  foldl (fun s item => removeFromWatchlist_updater (WatchlistItem.id item) s)
    s l
  = List.filter (fun x => negb (bool_decide (WatchlistItem.id x ∈ ids l))) s.
Proof.
  revert s. induction l as [|i l IH]; intros s; cbn.
  - induction s as [|x s IHs]; cbn; [done |].
    rewrite bool_decide_false by apply not_elem_of_nil. cbn. by rewrite <- IHs.
  - rewrite IH. unfold removeFromWatchlist_updater.
    rewrite List_filter_filter. apply filter_ext. intros x. unfold has_id.
    destruct (decide (WatchlistItem.id x = WatchlistItem.id i)) as [E | E].
    + rewrite (bool_decide_true (_ = _)) by done. cbn.
      symmetry. apply negb_false_iff, bool_decide_eq_true.
      rewrite E. by left.
    + rewrite (bool_decide_false (_ = _)) by done. cbn. f_equal.
      apply bool_decide_ext. rewrite elem_of_cons. tauto.
Qed.

Lemma pending_remove_each (l : list Item) : forall p,
  pending
    (foldl (fun p item => removeFromWatchlist (WatchlistItem.id item) p) p l)
  = foldl (fun s item => removeFromWatchlist_updater (WatchlistItem.id item) s)
      (pending p) l.
Proof.
  induction l as [|i l IH]; intros p; [done |].
  cbn [foldl]. rewrite IH. unfold removeFromWatchlist.
  by rewrite pending_setItems.
Qed.

Lemma pending_clear_all items p :
  pending (Watchlist.handleClearAll items true p)
  = List.filter
      (fun x => negb (bool_decide (WatchlistItem.id x ∈ ids items)))
      (pending p).
Proof.
  unfold Watchlist.handleClearAll. by rewrite pending_remove_each, remove_each.
Qed.

Lemma List_filter_none {A} (f : A -> bool) (l : list A) :
  (forall x, x ∈ l -> f x = false) -> List.filter f l = [].
Proof.
  induction l as [|x l IH]; intros H; [done |]. cbn.
  rewrite (H x) by by left. apply IH. intros y Hy. apply H. by right.
Qed.

(** X18. Clear All: declined, nothing is called.  Confirmed, every item
    of the page is removed by its id, so the next render has none of the
    ids the page had, and no item at all when the page had the items of
    the provider; the entry in the storage is still there afterwards. *)
Theorem clear_all_removes_each (items : list Item) (p : Provider) :
  Watchlist.handleClearAll items false p = p /\
  (forall id, id ∈ ids items ->
     isInWatchlist (pending (Watchlist.handleClearAll items true p)) id
     = false) /\
  (pending p = items ->
   pending (Watchlist.handleClearAll items true p) = []) /\
  exists w,
    render (Watchlist.handleClearAll items true p)
    = Ok ({| state := pending (Watchlist.handleClearAll items true p);
             queue := []; world := w |},
          {| Lifecycle.items :=
               pending (Watchlist.handleClearAll items true p) |}) /\
    (is_Some (entries (localStorage (world p)) !! WATCHLIST_KEY) ->
     is_Some (entries (localStorage w) !! WATCHLIST_KEY)).
Proof.
  split; [done |]. split; [| split].
  - intros id Hid. apply not_true_is_false.
    rewrite isInWatchlist_elem, pending_clear_all. unfold ids at 1.
    intros (x & -> & Hx)%list_elem_of_fmap.
    apply list_elem_of_In, filter_In in Hx as [_ Hx].
    by rewrite bool_decide_true in Hx.
  - intros Hp. rewrite pending_clear_all, Hp.
    apply List_filter_none. intros x Hx.
    apply negb_false_iff, bool_decide_eq_true. by apply list_elem_of_fmap_2.
  - destruct (render_returns (Watchlist.handleClearAll items true p))
      as (w & Hr & Hw).
    exists w. split; [done |].
    replace (world (Watchlist.handleClearAll items true p)) with (world p)
      in Hw; [done |].
    unfold Watchlist.handleClearAll. clear.
    revert p. induction items as [|i l IH]; intros p; [done |].
    cbn [foldl]. by rewrite <- IH.
Qed.

(** X19. The empty state takes the place of the controls: the page shows
    the filter and sort controls and the button Clear All exactly when
    some item passes the filter, and the empty state when none does,
    whether or not the watchlist has items of the other type. *)
Theorem empty_state_follows_filter
    (localeCompare : jsstring -> jsstring -> Z) (items : list Item)
    (sortBy : Watchlist.SortOption) (filterBy : Filter) :
  let v := Watchlist.page localeCompare items sortBy filterBy in
  Watchlist.empty_state v = negb (Watchlist.controls v) /\
  Watchlist.clear_all_button v = Watchlist.controls v /\
  (Watchlist.controls v = true <->
   exists item, item ∈ items /\ passes filterBy item = true) /\
  length (Watchlist.cards v) = length (getFiltered items filterBy) /\
  (items <> [] -> Watchlist.empty_state v = true ->
   exists t, filterBy = only t /\
             Forall (fun item => WatchlistItem.type item <> t) items).
Proof.
  cbn zeta.
  assert (Hlen : length (Watchlist.sortedItems localeCompare items sortBy
                           filterBy)
                 = length (List.filter (passes filterBy) items)).
  { unfold Watchlist.sortedItems. rewrite filteredItems_getFiltered.
    rewrite getFiltered_passes. apply Permutation_length, sort_Permutation. }
  assert (Hpos :
            Nat.ltb 0 (length (List.filter (passes filterBy) items)) = true
            <-> exists item, item ∈ items /\ passes filterBy item = true).
  { rewrite Nat.ltb_lt. split.
    - destruct (List.filter _ _) as [|x l] eqn:E; cbn; [lia |]. intros _.
      exists x. rewrite list_elem_of_In, <- filter_In, E. by left.
    - intros (x & Hx & Hp).
      assert (Hin : In x (List.filter (passes filterBy) items))
        by (apply filter_In; by rewrite <- list_elem_of_In).
      destruct (List.filter _ _); [done | cbn; lia]. }
  unfold Watchlist.page. cbn [Watchlist.empty_state Watchlist.controls
    Watchlist.clear_all_button Watchlist.cards]. rewrite Hlen.
  split; [done |]. split; [done |]. split; [done |].
  split; [by rewrite getFiltered_passes |].
  intros Hne Hempty. apply negb_true_iff in Hempty.
  destruct filterBy as [|t].
  - exfalso. destruct items as [|x l]; [done |]. cbn in Hempty. done.
  - exists t. split; [done |]. apply Forall_forall. intros x Hx Ht.
    assert (Hsome : Nat.ltb 0 (length (List.filter (passes (only t)) items))
                    = true).
    { apply Hpos. exists x. split; [done |]. cbn. unfold has_type.
      by rewrite bool_decide_true. }
    congruence.
Qed.

Lemma empty_state_follows_filter_witness :
  exists t, only tv = only t /\
    Forall (fun item => WatchlistItem.type item <> t)
      [Examples.item "550" movie "Fight Club" 1].
Proof.
  apply (empty_state_follows_filter Host.localeCompare
           [Examples.item "550" movie "Fight Club" 1]
           Watchlist.dateAddedDesc (only tv)); [done | reflexivity].
Defined.

(** X20. Two cards never lead to the same path unless they have the same
    id and the same type. *)
Theorem card_path_inj (id1 id2 : jsstring) (t1 t2 : MediaType) :
  Watchlist.card_path id1 t1 = Watchlist.card_path id2 t2 ->
  id1 = id2 /\ t1 = t2.
Proof.
  unfold Watchlist.card_path. destruct t1, t2; vm_compute;
    intros H; by simplify_eq.
Qed.

Lemma card_path_inj_witness :
  js "550" = js "550" /\ movie = movie.
Proof.
  apply (card_path_inj (js "550") (js "550") movie movie). reflexivity.
Defined.

End PageMore.
